(** * News Pulse API: a shallow embedding of [app.js]

    The development follows the source file top to bottom: the helpers
    ([toRomanHindi], [dedupeByLink]), the source table, the [/api/feed]
    and [/api/breaking] routes, and the Telegram webhook with its in-memory
    studio buffer.  The first part holds the model, the second part the
    properties proved about it.

    Conventions.
    - A JavaScript string that may hold arbitrary text is a list of UTF-16
      code units ([jsstring]); property names, category names, header
      values and URLs, which the source only compares for equality, are
      Rocq strings.
    - A JavaScript [Set] is a [gset]; arrays are lists; an object literal
      used as a table is a [gmap] of its own properties.
    - Code that can throw inside a [try] block lives in the [exn] monad.
    - Numbers that the source computes in double precision (the scores of
      [/api/breaking]) are exact rationals here. *)

From Stdlib Require Import Ascii String QArith Qminmax Lqa.
From stdpp Require Import gmap strings list sorting.

Set Warnings "-register-all,-clear-no-such-hyp".

Open Scope Z_scope.
Open Scope nat_scope.

(** * Part I: the model *)

(** ** Strings as UTF-16 code units *)

Definition jsstring := list N.

(** The code units of an ASCII literal. *)
Definition js (s : string) : jsstring :=
  N_of_ascii <$> list_ascii_of_string s.

(** ** Exceptions

    [Throw] stands for any exception raised inside a [try] block; the
    handlers of the source never inspect the exception they catch. *)

Inductive exn (A : Type) : Type :=
| Ok (a : A)
| Throw.
Arguments Ok {A} a.
Arguments Throw {A}.

#[export] Instance exn_ret : MRet exn := λ A a, Ok a.
#[export] Instance exn_bind : MBind exn := λ A B f m,
  match m with Ok a => f a | Throw => Throw end.

(** ** Regular expressions

    The fragment of JavaScript regular expressions that the source uses:
    characters, concatenation, alternation and [?].  Matching is the
    backtracking matcher of the language: alternatives are tried left to
    right, [?] is greedy, and [k] is the continuation that must accept the
    rest of the input.  The continuation receives the unconsumed suffix. *)

Inductive regex : Type :=
| Eps
| Chr (c : N)
| Seq (r1 r2 : regex)
| Alt (r1 r2 : regex)
| Opt (r : regex).

(** The literal [s] as a regular expression. *)
Definition lit (s : jsstring) : regex := foldr (λ c r, Seq (Chr c) r) Eps s.

(** [Canonicalize] of the [i] flag without the [u] flag: a code unit is
    compared through its upper-case mapping, and a code unit from 128 up is
    never identified with one below 128.  The patterns of the source are
    ASCII, so only the ASCII part of the mapping can make two code units
    equal, and that is the part written here. *)
Definition canonicalize (c : N) : N :=
  if decide (97 ≤ c ∧ c ≤ 122)%N then (c - 32)%N else c.

Definition same_unit (ignoreCase : bool) (p c : N) : bool :=
  if ignoreCase then bool_decide (canonicalize p = canonicalize c)
  else bool_decide (p = c).

Fixpoint rmatch {R : Type} (i : bool) (r : regex) (s : jsstring)
    (k : jsstring → option R) : option R :=
  match r with
  | Eps => k s
  | Chr p =>
      match s with
      | c :: s' => if same_unit i p c then k s' else None
      | [] => None
      end
  | Seq r1 r2 => rmatch i r1 s (λ s', rmatch i r2 s' k)
  | Alt r1 r2 =>
      match rmatch i r1 s k with
      | Some x => Some x
      | None => rmatch i r2 s k
      end
  | Opt r1 =>
      match rmatch i r1 s k with
      | Some x => Some x
      | None => k s
      end
  end.

(** The match of [r] that starts at the head of [s], as the number of code
    units it consumes. *)
Definition match_here (i : bool) (r : regex) (s : jsstring) : option nat :=
  rmatch i r s (λ s', Some (length s - length s')).

(** [re.test(s)]: some position of [s] starts a match. *)
Fixpoint test (i : bool) (r : regex) (s : jsstring) : bool :=
  match match_here i r s with
  | Some _ => true
  | None => match s with [] => false | _ :: s' => test i r s' end
  end.

(** [s.replace(re, rep)] for a [g]-flagged [re] whose matches are never
    empty (every pattern of the source holds at least one character) and a
    replacement without [$]: scan from the left, emit [rep] for a match and
    resume behind it, copy the code unit otherwise.  [skip] counts the code
    units of the current match that are still to be passed over. *)
Fixpoint replace_from (re : regex) (rep : jsstring) (skip : nat)
    (s : jsstring) : jsstring :=
  match s with
  | [] => []
  | c :: s' =>
      match skip with
      | S n => replace_from re rep n s'
      | O =>
          match match_here false re s with
          | Some (S n) => rep ++ replace_from re rep n s'
          | _ => c :: replace_from re rep 0 s'
          end
      end
  end.

Definition replace (re : regex) (rep : jsstring) (s : jsstring) : jsstring :=
  replace_from re rep 0 s.

(** ** [toRomanHindi] *)

Module RomanHindi.

(** The table [map] of the source, in its order.  Devanagari letters are
    given by their code points; all of them are single UTF-16 code units. *)
Definition map : list (regex * jsstring) :=
  [ (lit [0x0915; 0x094D; 0x0937]%N, js "ksh");
    (lit [0x091C; 0x094D; 0x091E]%N, js "gya");
    (lit [0x0924; 0x094D; 0x0930]%N, js "tra");
    (lit [0x0905]%N, js "a"); (lit [0x0906]%N, js "aa");
    (lit [0x0907]%N, js "i"); (lit [0x0908]%N, js "ee");
    (lit [0x0909]%N, js "u"); (lit [0x090A]%N, js "oo");
    (lit [0x090F]%N, js "e"); (lit [0x0910]%N, js "ai");
    (lit [0x0913]%N, js "o"); (lit [0x0914]%N, js "au");
    (lit [0x0915]%N, js "k"); (lit [0x0916]%N, js "kh");
    (lit [0x0917]%N, js "g"); (lit [0x0918]%N, js "gh");
    (lit [0x091A]%N, js "ch"); (lit [0x091B]%N, js "chh");
    (lit [0x091C]%N, js "j"); (lit [0x091D]%N, js "jh");
    (lit [0x091F]%N, js "t"); (lit [0x0920]%N, js "th");
    (lit [0x0921]%N, js "d"); (lit [0x0922]%N, js "dh");
    (lit [0x0923]%N, js "n");
    (lit [0x0924]%N, js "t"); (lit [0x0925]%N, js "th");
    (lit [0x0926]%N, js "d"); (lit [0x0927]%N, js "dh");
    (lit [0x0928]%N, js "n");
    (lit [0x092A]%N, js "p"); (lit [0x092B]%N, js "ph");
    (lit [0x092C]%N, js "b"); (lit [0x092D]%N, js "bh");
    (lit [0x092E]%N, js "m");
    (lit [0x092F]%N, js "y"); (lit [0x0930]%N, js "r");
    (lit [0x0932]%N, js "l"); (lit [0x0935]%N, js "v");
    (Alt (lit [0x0936]%N) (lit [0x0937]%N), js "sh");
    (lit [0x0938]%N, js "s"); (lit [0x0939]%N, js "h");
    (lit [0x0902]%N, js "n"); (lit [0x0901]%N, js "n");
    (lit [0x0903]%N, js "h"); (lit [0x093C]%N, js "") ].

(** The two whole-word patterns of the [return] statement. *)
Definition hai : jsstring := [0x0939; 0x0948]%N.
Definition nahin : jsstring := [0x0928; 0x0939; 0x0940; 0x0902]%N.

(** [for (const [re,rep] of map) out = out.replace(re,rep)] *)
Definition apply_map (rules : list (regex * jsstring)) (str : jsstring)
    : jsstring :=
  foldl (λ out rule, replace rule.1 rule.2 out) str rules.

End RomanHindi.

Definition toRomanHindi (str : jsstring) : jsstring :=
  let out := RomanHindi.apply_map RomanHindi.map str in
  replace (lit RomanHindi.nahin) (js "nahi")
    (replace (lit RomanHindi.hai) (js "hai") out).

(** ** [dedupeByLink]

    [items.filter(i => s.has(i.link) ? false : (s.add(i.link), true))]:
    the filter walks the array from the left and threads the set [s] of
    the links seen so far. *)

Section dedupe.
Context {A L : Type} `{Countable L}.
Variable link : A → L.

Fixpoint filter_seen (s : gset L) (items : list A) : list A :=
  match items with
  | [] => []
  | i :: rest =>
      if decide (link i ∈ s) then filter_seen s rest
      else i :: filter_seen ({[ link i ]} ∪ s) rest
  end.

Definition dedupeByLink (items : list A) : list A := filter_seen ∅ items.

End dedupe.

(** ** The source table

    [sources] is an object literal: its own properties are the seven
    categories. *)

Definition sources : gmap string (list string) :=
  list_to_map
    [ ("Hyderabad", ["https://telanganatoday.com/hyderabad/feed"]);
      ("Telangana", ["https://telanganatoday.com/telangana/feed";
                     "https://www.thehindu.com/news/national/feeder/default.rss"]);
      ("India", ["https://feeds.feedburner.com/ndtvnews-top-stories";
                 "https://www.thehindu.com/news/national/feeder/default.rss"]);
      ("International",
         ["https://www.thehindu.com/news/international/feeder/default.rss"]);
      ("Sports", ["https://feeds.feedburner.com/ndtvsports-latest";
                  "https://www.thehindu.com/sport/feeder/default.rss"]);
      ("Gadgets", ["https://feeds.feedburner.com/gadgets360-latest";
                   "https://www.thehindu.com/sci-tech/technology/feeder/default.rss"]);
      ("Health", ["https://www.thehindu.com/sci-tech/health/feeder/default.rss"])
    ]%string.

(** The value of [sources.India]. *)
Definition India : list string :=
  [ "https://feeds.feedburner.com/ndtvnews-top-stories";
    "https://www.thehindu.com/news/national/feeder/default.rss" ]%string.

(** An object literal inherits from [Object.prototype], and the bracket
    read [sources[category]] walks the prototype chain.  These are the
    property names of [Object.prototype]; each of them reads as a function,
    or as the prototype object itself for [__proto__]. *)
Definition object_prototype_keys : list string :=
  [ "constructor"; "__proto__"; "hasOwnProperty"; "isPrototypeOf";
    "propertyIsEnumerable"; "toLocaleString"; "toString"; "valueOf";
    "__defineGetter__"; "__defineSetter__"; "__lookupGetter__";
    "__lookupSetter__" ]%string.

(** What a read of a property of [sources] can yield. *)
Inductive table_value : Type :=
| TUndefined
| TArray (urls : list string)
| TInherited (name : string).

(** [sources[k]] *)
Definition sources_get (k : string) : table_value :=
  match sources !! k with
  | Some urls => TArray urls
  | None =>
      if decide (k ∈ object_prototype_keys) then TInherited k else TUndefined
  end.

(** [a || b] on such values: arrays, functions and objects are truthy. *)
Definition table_or (a b : table_value) : table_value :=
  match a with
  | TUndefined => b
  | _ => a
  end.

(** ** [/api/feed] *)

Record FeedItem : Type := {
  title : option jsstring;
  link : option jsstring;
  summary : jsstring;
  bullets : list jsstring;
  pubDate : option jsstring;
  source : string;
  image : option jsstring
}.

(** The two responses of the route: [res.json({category, items})] with the
    default status 200, and [res.status(500).json({error: "feed_failed"})]. *)
Inductive feed_response : Type :=
| FeedJson (category : string) (items : list FeedItem)
| FeedFailed.

Definition feed_status (r : feed_response) : nat :=
  match r with
  | FeedJson _ _ => 200
  | FeedFailed => 500
  end.

(** The [category] field of the response body, when it has one. *)
Definition feed_category (r : feed_response) : option string :=
  match r with
  | FeedJson c _ => Some c
  | FeedFailed => None
  end.

Section feed.

(** The network is a parameter: [fanout urls] is the array [items] as the
    concurrent fetches over [urls] have filled it, in completion order.
    Every failure inside the fan-out is caught there ([parseURL] by the
    inner [try], [summarize] and [safeDomain] by their own), so the fan-out
    itself always yields an array. *)
Variable fanout : list string → list FeedItem.

(** The handler.  [query] is [req.query.category]; the destructuring
    default applies when it is undefined.  [urls.map] exists only on an
    array: on an inherited value the call throws, and the outer [catch]
    answers 500. *)
Definition feed (query : option string) : feed_response :=
  let category := default "India"%string query in
  let urls := table_or (sources_get category) (sources_get "India") in
  match urls with
  | TArray us => FeedJson category (dedupeByLink link (fanout us))
  | _ => FeedFailed
  end.

End feed.

(** ** [Array.prototype.sort]

    [items.sort(cmp)] with a comparator that returns a number: [a] goes
    before [b] when [cmp a b < 0], and the sort is stable, so elements that
    the comparator does not order keep their input order. *)

Section sort.
Context {A : Type}.
Variable cmp : A → A → Q.

(** [x] stood before all of [l]: it passes the elements that must precede
    it and stops at the first one that need not. *)
Fixpoint sort_insert (x : A) (l : list A) : list A :=
  match l with
  | [] => [x]
  | y :: l' =>
      if Qlt_le_dec (cmp y x) 0 then y :: sort_insert x l' else x :: y :: l'
  end.

Definition sort (l : list A) : list A := foldr sort_insert [] l.

End sort.

(** ** [/api/breaking] *)

(** An entry of a parsed feed, as far as the route reads it. *)
Module Entry.
Record t : Type := {
  title : option jsstring;
  link : option jsstring;
  pubDate : option jsstring
}.
End Entry.

Module Breaking.

Record item : Type := {
  title : option jsstring;
  link : option jsstring;
  source : string;
  score : Q
}.

(** [/(breaking|live|updates?)/i] *)
Definition keywords : regex :=
  Alt (lit (js "breaking"))
    (Alt (lit (js "live")) (Seq (lit (js "update")) (Opt (Chr 115%N)))).

Section route.

(** The date parser and the URL parser of the platform are parameters:
    [parseDate s] is [new Date(s).getTime()] for a non-empty string [s],
    with [None] for [NaN]. *)
Variable parseDate : jsstring → option Z.
Variable safeDomain : string → string.

(** [new Date(i.pubDate || 0).getTime()]: a missing or empty [pubDate] is
    replaced by the number 0, the epoch. *)
Definition getTime (pubDate : option jsstring) : option Z :=
  match pubDate with
  | None | Some [] => Some 0%Z
  | Some s => parseDate s
  end.

(** An entry without a usable date: no [pubDate], an empty one, or one
    that the date parser rejects. *)
Definition undated (i : Entry.t) : Prop :=
  Entry.pubDate i = None ∨ Entry.pubDate i = Some []
  ∨ getTime (Entry.pubDate i) = None.

(** [ageMin], with [now] the value of [Date.now()], in milliseconds. *)
Definition ageMin (now : Z) (i : Entry.t) : Q :=
  match getTime (Entry.pubDate i) with
  | None => 99999
  | Some t => inject_Z (now - t) / 60000
  end.

(** The factor 2 or 1 in front of the score. *)
Definition boost (i : Entry.t) : Q :=
  if test true keywords (default [] (Entry.title i)) then 2 else 1.

Definition entry_score (now : Z) (i : Entry.t) : Q :=
  boost i * (1 / Qmax 1 (ageMin now i)).

(** The object pushed for entry [i] of the feed at [url]. *)
Definition collect (now : Z) (url : string) (i : Entry.t) : item :=
  {| title := Entry.title i; link := Entry.link i;
     source := safeDomain url; score := entry_score now i |}.

(** The body of the response.  [collected] lists what the fan-out pushed,
    in the order of the pushes: the clock reading of the push, the URL of
    the feed and the entry. *)
Definition breaking (collected : list (Z * string * Entry.t)) : list item :=
  let items := (λ p, collect p.1.1 p.1.2 p.2) <$> collected in
  take 5 (sort (λ a b, score b - score a)%Q items).

End route.
End Breaking.

(** ** The Telegram webhook and the studio buffer *)

(** The values of a parsed JSON body, and [undefined] for what it lacks.
    A number is kept as a rational: the handler only tests numbers for
    truthiness and passes them on. *)
Inductive val : Type :=
| VUndefined
| VNull
| VBool (b : bool)
| VNum (q : Q)
| VStr (s : jsstring)
| VArr (elems : list val)
| VObj (fields : list (string * val)).

Definition truthy (v : val) : bool :=
  match v with
  | VUndefined | VNull => false
  | VBool b => b
  | VNum q => negb (Qeq_bool q 0)
  | VStr s => match s with [] => false | _ => true end
  | VArr _ | VObj _ => true
  end.

(** The first binding of [k] among the own properties of an object. *)
Fixpoint field (fields : list (string * val)) (k : string) : val :=
  match fields with
  | [] => VUndefined
  | (k', v) :: rest => if decide (k' = k) then v else field rest k
  end.

(** [v.k], for the data properties that the handler reads ([chat], [type],
    [photo], [length], [video], [file_id], [text], [caption], [message_id],
    [date], [channel_post], [message]).  Reading a property of [undefined]
    or [null] throws; strings and arrays have a [length]; no other of
    these names is defined on a primitive, an array or [Object.prototype]. *)
Definition get (v : val) (k : string) : exn val :=
  match v with
  | VUndefined | VNull => Throw
  | VObj fields => Ok (field fields k)
  | VStr s =>
      if decide (k = "length"%string)
      then Ok (VNum (inject_Z (Z.of_nat (length s)))) else Ok VUndefined
  | VArr l =>
      if decide (k = "length"%string)
      then Ok (VNum (inject_Z (Z.of_nat (length l)))) else Ok VUndefined
  | VBool _ | VNum _ => Ok VUndefined
  end.

(** [v?.k] *)
Definition get_opt (v : val) (k : string) : exn val :=
  match v with
  | VUndefined | VNull => Ok VUndefined
  | _ => get v k
  end.

(** [v.slice(-1)]: only strings and arrays have a callable [slice]; calling
    what is not a function throws. *)
Definition slice_last (v : val) : exn val :=
  match v with
  | VStr s => Ok (VStr (drop (length s - 1) s))
  | VArr l => Ok (VArr (drop (length l - 1) l))
  | _ => Throw
  end.

(** [v[0]] on the result of [slice]. *)
Definition index0 (v : val) : val :=
  match v with
  | VStr (c :: _) => VStr [c]
  | VArr (x :: _) => x
  | _ => VUndefined
  end.

(** [v === s] for a string literal [s]. *)
Definition is_string (v : val) (s : jsstring) : bool :=
  match v with
  | VStr t => bool_decide (t = s)
  | _ => false
  end.

(** [text.split("\n")[0]]: the code units before the first line feed. *)
Fixpoint first_line (s : jsstring) : jsstring :=
  match s with
  | [] => []
  | c :: s' => if decide (c = 10%N) then [] else c :: first_line s'
  end.

Inductive kind : Type := text | photo | video.

Module Post.
Record t : Type := {
  id : val;
  type : kind;
  file_id : val;
  title : jsstring;
  caption : val;
  date : val;
  tags : list val
}.
End Post.

Definition studioMax : nat := 50.

(** [studioBuffer.unshift(obj);
     if (studioBuffer.length > studioMax) studioBuffer.pop();] *)
Definition push {A : Type} (obj : A) (studioBuffer : list A) : list A :=
  let b := obj :: studioBuffer in
  if decide (studioMax < length b) then removelast b else b.

(** The buffer after the pushes [objs], the first of them first. *)
Definition pushes {A : Type} (objs : list A) (studioBuffer : list A) : list A :=
  foldl (λ b obj, push obj b) studioBuffer objs.

(** The two [if] statements that set [type] and [file_id].  They are
    written one after the other, not as [if]/[else]. *)
Definition media (m : val) : exn (kind * val) :=
  p ← get m "photo";
  len ← get_opt p "length";
  r ← (if truthy len
       then l ← slice_last p; f ← get (index0 l) "file_id"; mret (photo, f)
       else mret (text, VNull));
  v ← get m "video";
  if truthy v then f ← get v "file_id"; mret (video, f) else mret r.

(** [m.text || m.caption || ""] *)
Definition body (m : val) : exn val :=
  t ← get m "text";
  c ← get m "caption";
  mret (if truthy t then t else if truthy c then c else VStr []).

(** [text.split("\n")[0]?.slice(0, 100) || ""]: [split] is a method of
    strings only. *)
Definition derive_title (b : val) : exn jsstring :=
  match b with
  | VStr s => Ok (take 100 (first_line s))
  | _ => Throw
  end.

(** The object pushed for a message [m]; the channel branch and the private
    branch of the handler build it with the same code. *)
Definition post_of (m : val) : exn Post.t :=
  '(ty, fid) ← media m;
  b ← body m;
  i ← get m "message_id";
  ttl ← derive_title b;
  d ← get m "date";
  mret {| Post.id := i; Post.type := ty; Post.file_id := fid;
          Post.title := ttl; Post.caption := b;
          Post.date := d; Post.tags := [] |}.

(** The shape of a delivery, as the two tests of the handler decide it:
    [ch?.chat?.type === "channel"] first, [msg?.chat?.type === "private"]
    second. *)
Inductive delivery : Type :=
| Broadcast (ch : val)
| Direct (msg : val)
| Unrecognized.

Definition classify (update : val) : exn delivery :=
  ch ← get update "channel_post";
  msg ← get update "message";
  chat ← get_opt ch "chat";
  ty ← get_opt chat "type";
  if is_string ty (js "channel") then mret (Broadcast ch)
  else
    mchat ← get_opt msg "chat";
    mty ← get_opt mchat "type";
    if is_string mty (js "private") then mret (Direct msg)
    else mret Unrecognized.

(** [req.body || {}] *)
Definition update_of (req_body : val) : val :=
  if truthy req_body then req_body else VObj [].

(** The [try] block behind the secret check. *)
Definition ingest (req_body : val) (studioBuffer : list Post.t)
    : exn (list Post.t) :=
  let update := update_of req_body in
  d ← classify update;
  match d with
  | Broadcast m | Direct m => p ← post_of m; mret (push p studioBuffer)
  | Unrecognized => mret studioBuffer
  end.

(** [process.env.ADMIN_KEY] is set when it is a non-empty string. *)
Definition configured (ADMIN_KEY : option string) : bool :=
  match ADMIN_KEY with
  | Some k => negb (String.eqb k "")
  | None => false
  end.

(** The handler: the status sent and the buffer it leaves.  [secret] is the
    header [x-telegram-bot-api-secret-token].  Nothing is pushed before the
    last step of [ingest], so an exception leaves the buffer as it was.
    This is the callback of the route alone, on the [req.body] that the
    body parser has produced; [webhook_route] below puts the parser and
    the error handler in front of it. *)
Definition webhook (ADMIN_KEY secret : option string) (req_body : val)
    (studioBuffer : list Post.t) : nat * list Post.t :=
  if configured ADMIN_KEY && negb (bool_decide (secret = ADMIN_KEY))
  then (401, studioBuffer)
  else
    match ingest req_body studioBuffer with
    | Ok b => (200, b)
    | Throw => (200, studioBuffer)
    end.

(** ** Sample deliveries *)

Definition channel_chat : string * val :=
  ("chat", VObj [("type", VStr (js "channel"))])%string.

Definition private_chat : string * val :=
  ("chat", VObj [("type", VStr (js "private"))])%string.

Definition two_sizes : val :=
  VArr [ VObj [("file_id", VStr (js "small"))];
         VObj [("file_id", VStr (js "large"))] ]%string.

Definition two_lines : jsstring :=
  js "Flood alert" ++ [10%N] ++ js "more text".

(** A channel post with a photo and a two-line caption. *)
Definition flood_alert : val :=
  VObj [ channel_chat; ("message_id", VNum 7); ("photo", two_sizes);
         ("caption", VStr two_lines);
         ("date", VNum 1700000000) ]%string.

Definition flood_alert_post : Post.t :=
  {| Post.id := VNum 7; Post.type := photo;
     Post.file_id := VStr (js "large"); Post.title := js "Flood alert";
     Post.caption := VStr two_lines;
     Post.date := VNum 1700000000; Post.tags := [] |}.

(** A channel post that carries a photo list and a video. *)
Definition clip_with_photo : val :=
  VObj [ channel_chat; ("message_id", VNum 8); ("photo", two_sizes);
         ("video", VObj [("file_id", VStr (js "clip"))]);
         ("caption", VStr (js "Watch")); ("date", VNum 1700000100) ]%string.

(** A private message that carries a text and a caption. *)
Definition text_and_caption : val :=
  VObj [ private_chat; ("message_id", VNum 9);
         ("text", VStr (js "from the text field"));
         ("caption", VStr (js "from the caption field"));
         ("date", VNum 1700000200) ]%string.

Definition text_and_caption_post : Post.t :=
  {| Post.id := VNum 9; Post.type := text; Post.file_id := VNull;
     Post.title := js "from the text field";
     Post.caption := VStr (js "from the text field");
     Post.date := VNum 1700000200; Post.tags := [] |}.

(** ** The keyword boost in the words of the specification

    A title mentions a word when the word occurs in it somewhere, letter
    case aside; the boost is 2 for a title that mentions "breaking",
    "live", "update" or "updates", and 1 otherwise. *)

Definition lower (c : N) : N :=
  if decide (65 ≤ c ∧ c ≤ 90)%N then (c + 32)%N else c.

Fixpoint starts_with (w s : jsstring) : bool :=
  match w, s with
  | [], _ => true
  | p :: w', c :: s' => bool_decide (lower p = lower c) && starts_with w' s'
  | _ :: _, [] => false
  end.

Fixpoint mentions (w s : jsstring) : bool :=
  starts_with w s
  || match s with [] => false | _ :: s' => mentions w s' end.

Definition keywordBoost (title : jsstring) : Q :=
  if mentions (js "breaking") title || mentions (js "live") title
     || mentions (js "update") title || mentions (js "updates") title
  then 2 else 1.

(** ** [stripHtml]

    The patterns of [stripHtml] need character classes, [*], [*?] and
    [\b].  A class is a list of code units or the complement of one; the
    matcher is again the backtracking matcher of the language, with the
    code unit before the current position at hand for [\b]. *)

Module Rx.

Inductive cls : Type :=
| Only (units : list N)
| Except (units : list N).

Definition member (k : cls) (c : N) : bool :=
  match k with
  | Only l => bool_decide (c ∈ l)
  | Except l => bool_decide (c ∉ l)
  end.

Inductive t : Type :=
| Eps
| One (k : cls)
| Seq (r1 r2 : t)
| Star (greedy : bool) (k : cls)
| Boundary
| LineEnd.

(** The line terminators, before which [$] matches under the [m] flag. *)
Definition line_end : list N := [10; 13; 0x2028; 0x2029]%N.

(** The word characters of [\b]: digits, ASCII letters and the
    underscore. *)
Definition word (c : N) : bool :=
  bool_decide (48 ≤ c ∧ c ≤ 57)%N || bool_decide (65 ≤ c ∧ c ≤ 90)%N
  || bool_decide (c = 95)%N || bool_decide (97 ≤ c ∧ c ≤ 122)%N.

Definition word_at (o : option N) : bool :=
  match o with
  | Some c => word c
  | None => false
  end.

Section matcher.
Context {R : Type}.

(** [k*]: as many units of the class as possible, then fewer. *)
Fixpoint star_greedy (k : cls) (cont : option N → jsstring → option R)
    (prev : option N) (s : jsstring) : option R :=
  match s with
  | c :: s' =>
      if member k c then
        match star_greedy k cont (Some c) s' with
        | Some v => Some v
        | None => cont prev s
        end
      else cont prev s
  | [] => cont prev []
  end.

(** [k*?]: as few units of the class as possible, then more. *)
Fixpoint star_lazy (k : cls) (cont : option N → jsstring → option R)
    (prev : option N) (s : jsstring) : option R :=
  match cont prev s with
  | Some v => Some v
  | None =>
      match s with
      | c :: s' => if member k c then star_lazy k cont (Some c) s' else None
      | [] => None
      end
  end.

Fixpoint rmatch (r : t) (prev : option N) (s : jsstring)
    (cont : option N → jsstring → option R) : option R :=
  match r with
  | Eps => cont prev s
  | One k =>
      match s with
      | c :: s' => if member k c then cont (Some c) s' else None
      | [] => None
      end
  | Seq r1 r2 => rmatch r1 prev s (λ prev' s', rmatch r2 prev' s' cont)
  | Star true k => star_greedy k cont prev s
  | Star false k => star_lazy k cont prev s
  | Boundary =>
      if xorb (word_at prev) (word_at (head s)) then cont prev s else None
  | LineEnd =>
      match s with
      | [] => cont prev s
      | c :: _ => if bool_decide (c ∈ line_end) then cont prev s else None
      end
  end.

End matcher.

(** The match that starts at the head of [s], behind [prev], as the number
    of code units it consumes. *)
Definition match_here (r : t) (prev : option N) (s : jsstring) : option nat :=
  rmatch r prev s (λ _ s', Some (length s - length s')).

(** [s.replace(re, rep)] with the [g] flag, for patterns whose matches are
    never empty. *)
Fixpoint replace_from (re : t) (rep : jsstring) (skip : nat)
    (prev : option N) (s : jsstring) : jsstring :=
  match s with
  | [] => []
  | c :: s' =>
      match skip with
      | S n => replace_from re rep n (Some c) s'
      | O =>
          match match_here re prev s with
          | Some (S n) => rep ++ replace_from re rep n (Some c) s'
          | _ => c :: replace_from re rep 0 (Some c) s'
          end
      end
  end.

Definition replace (re : t) (rep : jsstring) (s : jsstring) : jsstring :=
  replace_from re rep 0 None s.

(** A literal, and a literal under the [i] flag: an ASCII letter stands
    for both of its cases. *)
Definition lit (s : jsstring) : t :=
  foldr (λ c r, Seq (One (Only [c])) r) Eps s.

Definition lit_i (s : jsstring) : t :=
  foldr (λ c r, Seq (One (Only [canonicalize c; lower c])) r) Eps s.

(** [\s], which is also what [trim] removes. *)
Definition space : list N :=
  [ 9; 10; 11; 12; 13; 32; 0xA0; 0x1680;
    0x2000; 0x2001; 0x2002; 0x2003; 0x2004; 0x2005; 0x2006; 0x2007;
    0x2008; 0x2009; 0x200A; 0x2028; 0x2029; 0x202F; 0x205F; 0x3000;
    0xFEFF ]%N.

Definition any : cls := Except [].
Definition not_gt : cls := Except [62%N].

(** [/<script\b[^>]*>[\s\S]*?<\/script>/gi] *)
Definition script : t :=
  Seq (lit_i (js "<script"))
    (Seq Boundary
       (Seq (Star true not_gt)
          (Seq (One (Only [62%N]))
             (Seq (Star false any) (lit_i (js "</script>")))))).

(** [/<style\b[^>]*>[\s\S]*?<\/style>/gi] *)
Definition style : t :=
  Seq (lit_i (js "<style"))
    (Seq Boundary
       (Seq (Star true not_gt)
          (Seq (One (Only [62%N]))
             (Seq (Star false any) (lit_i (js "</style>")))))).

(** [/<!--[\s\S]*?-->/g] *)
Definition comment : t :=
  Seq (lit (js "<!--")) (Seq (Star false any) (lit (js "-->"))).

(** [/<[^>]+>/g] *)
Definition tag : t :=
  Seq (One (Only [60%N]))
    (Seq (One not_gt) (Seq (Star true not_gt) (One (Only [62%N])))).

(** [/\s+/g] *)
Definition spaces : t := Seq (One (Only space)) (Star true (Only space)).

End Rx.

(** [s.trim()] *)
Fixpoint trim_start (s : jsstring) : jsstring :=
  match s with
  | c :: s' => if bool_decide (c ∈ Rx.space) then trim_start s' else s
  | [] => []
  end.

Definition trim (s : jsstring) : jsstring :=
  reverse (trim_start (reverse (trim_start s))).

Definition stripHtml (html : jsstring) : jsstring :=
  trim
    (Rx.replace Rx.spaces (js " ")
       (Rx.replace Rx.tag (js " ")
          (Rx.replace Rx.comment []
             (Rx.replace Rx.style []
                (Rx.replace Rx.script [] html))))).

(** ** [parseJsonLoose] *)

(** [/{[\s\S]*}$/m] *)
Definition loose_object : Rx.t :=
  Rx.Seq (Rx.One (Rx.Only [123%N]))
    (Rx.Seq (Rx.Star true Rx.any)
       (Rx.Seq (Rx.One (Rx.Only [125%N])) Rx.LineEnd)).

(** [s.match(re)] for a pattern without the [g] flag: the text of the
    first match, [None] for [null]. *)
Fixpoint match_first (re : Rx.t) (prev : option N) (s : jsstring)
    : option jsstring :=
  match Rx.match_here re prev s with
  | Some n => Some (take n s)
  | None =>
      match s with
      | c :: s' => match_first re (Some c) s'
      | [] => None
      end
  end.

Section parseJsonLoose.

(** [JSON.parse] is a parameter; [Throw] is its [SyntaxError]. *)
Variable JSON_parse : jsstring → exn val.

Definition parseJsonLoose (s : jsstring) : val :=
  match JSON_parse s with
  | Ok v => v
  | Throw =>
      match match_first loose_object None s with
      | Some m =>
          match JSON_parse m with
          | Ok v => v
          | Throw => VNull
          end
      | None => VNull
      end
  end.

End parseJsonLoose.

(** ** Reading the output of [stripHtml]

    The vocabulary of the properties of [stripHtml], and two scanners that
    decide them. *)

(** A tag in the sense of the fourth pattern: a "<", at least one code
    unit other than ">", and a ">". *)
Definition has_tag (s : jsstring) : Prop :=
  ∃ pre a post, s = pre ++ [60%N] ++ a ++ [62%N] ++ post ∧
                a ≠ [] ∧ 62%N ∉ a.

(** Normal spacing: the only white space is the single space character,
    never two in a row, none at either end. *)
Definition normal_spacing (s : jsstring) : Prop :=
  (∀ c, c ∈ s → c ∈ Rx.space → c = 32%N) ∧
  (∀ l r, s ≠ l ++ [32%N; 32%N] ++ r) ∧
  (∀ c, head s = Some c → c ∉ Rx.space) ∧
  (∀ c, last s = Some c → c ∉ Rx.space).

(** The number of white-space code units at the head of a string. *)
Fixpoint leading (s : jsstring) : nat :=
  match s with
  | c :: s' => if bool_decide (c ∈ Rx.space) then S (leading s') else 0
  | [] => 0
  end.

(** [single_spaced b s]: every white-space code unit of [s] is a space
    that does not follow a space; [b] tells whether a space stands in
    front of [s]. *)
Fixpoint single_spaced (b : bool) (s : jsstring) : bool :=
  match s with
  | [] => true
  | c :: s' =>
      if bool_decide (c ∈ Rx.space)
      then negb b && bool_decide (c = 32%N) && single_spaced true s'
      else single_spaced false s'
  end.

(** The scanner for tags.  [Clear]: no "<" since the last ">".
    [Opened]: the last code unit is the first "<" since then.
    [Pending]: a "<" has been followed by something other than ">". *)
Inductive scan : Type := Clear | Opened | Pending.

Definition scan_step (q : scan) (c : N) : option scan :=
  if bool_decide (c = 62%N) then
    match q with Pending => None | _ => Some Clear end
  else if bool_decide (c = 60%N) then
    match q with Clear => Some Opened | _ => Some Pending end
  else
    match q with Clear => Some Clear | _ => Some Pending end.

Fixpoint tag_free (q : scan) (s : jsstring) : bool :=
  match s with
  | [] => true
  | c :: s' =>
      match scan_step q c with
      | Some q' => tag_free q' s'
      | None => false
      end
  end.

(** [needs c re]: every match of [re] holds the code unit [c]. *)
Fixpoint needs (c : N) (re : Rx.t) : bool :=
  match re with
  | Rx.One (Rx.Only l) => forallb (λ x, bool_decide (x = c)) l
  | Rx.Seq r1 r2 => needs c r1 || needs c r2
  | _ => false
  end.

(** ** Reading the transliteration table

    Helpers to state what the table does to single code units. *)

(** Whether a pattern can match the empty string, and the code units with
    which a match that is not empty can start. *)
Fixpoint nullable (re : regex) : bool :=
  match re with
  | Eps => true
  | Chr _ => false
  | Seq r1 r2 => nullable r1 && nullable r2
  | Alt r1 r2 => nullable r1 || nullable r2
  | Opt _ => true
  end.

Fixpoint first_units (re : regex) : list N :=
  match re with
  | Eps => []
  | Chr c => [c]
  | Seq r1 r2 =>
      first_units r1 ++ (if nullable r1 then first_units r2 else [])
  | Alt r1 r2 => first_units r1 ++ first_units r2
  | Opt r => first_units r
  end.

(** The code units that a pattern matches on their own: [c] for the
    pattern /c/, [a] and [b] for the pattern /a|b/. *)
Definition rule_units (re : regex) : list N :=
  match re with
  | Seq (Chr c) Eps => [c]
  | Alt (Seq (Chr a) Eps) (Seq (Chr b) Eps) => [a; b]
  | _ => []
  end.

(** The letters of the table: the code units that have a rule of their
    own. *)
Definition roman_letters : list N :=
  flat_map (λ rule, rule_units rule.1) RomanHindi.map.

(** [clears c rules]: some rule of [rules] matches [c] on its own, and
    neither its replacement nor a later one writes [c]. *)
Fixpoint clears (c : N) (rules : list (regex * jsstring)) : bool :=
  match rules with
  | [] => false
  | rule :: rest =>
      bool_decide (c ∈ rule_units rule.1) && bool_decide (c ∉ rule.2)
      && forallb (λ r, bool_decide (c ∉ r.2)) rest
      || clears c rest
  end.

(** ** A run of the webhook

    The buffer after a series of deliveries, each with its secret header
    and its body, under one configuration of [ADMIN_KEY]. *)
Definition serve (ADMIN_KEY : option string)
    (deliveries : list (option string * val))
    (studioBuffer : list Post.t) : list Post.t :=
  foldl (λ b d, (webhook ADMIN_KEY d.1 d.2 b).2) studioBuffer deliveries.

(** ** [/api/azad-studio] *)

Module Studio.
(** [{ ...p, mediaUrl, source }]: the post with two more fields; [None] is
    [null]. *)
Record item : Type := {
  post : Post.t;
  mediaUrl : option jsstring;
  source : jsstring
}.
End Studio.

Section azad_studio.

(** The conversion to a string inside a template literal is a parameter;
    it can throw (an object whose own [toString] is not callable). *)
Variable ToString : val → exn jsstring.

(** [p.file_id ? `/tg/file/${p.file_id}` : null] *)
Definition media_url (file_id : val) : exn (option jsstring) :=
  if truthy file_id
  then s ← ToString file_id; mret (Some (js "/tg/file/" ++ s))
  else mret None.

Definition studio_item (p : Post.t) : exn Studio.item :=
  u ← media_url (Post.file_id p);
  mret {| Studio.post := p; Studio.mediaUrl := u;
          Studio.source := js "Azad Studio" |}.

(** [studioBuffer.map(...)], the [items] of the response. *)
Fixpoint azad_studio (studioBuffer : list Post.t) : exn (list Studio.item) :=
  match studioBuffer with
  | [] => mret []
  | p :: rest =>
      i ← studio_item p; items ← azad_studio rest; mret (i :: items)
  end.

End azad_studio.

(** A post whose media reference is a string or falsy, as the platform
    sends them. *)
Definition plain_reference (p : Post.t) : Prop :=
  truthy (Post.file_id p) = false ∨ ∃ s, Post.file_id p = VStr s.

(** ** [/api/notify/breaking]

    [(req.headers["x-admin-key"] || "") !== (process.env.ADMIN_KEY || "")]
    answers 401, anything else 200.  This is the callback of the route
    alone; [notify_route] below puts the body parser in front of it. *)
Definition or_empty (v : option string) : string := default ""%string v.

Definition notify (ADMIN_KEY header : option string) : nat :=
  if bool_decide (or_empty header ≠ or_empty ADMIN_KEY) then 401 else 200.

(** ** [/api/translate] *)

Inductive translate_response : Type :=
| TranslateBad                     (* 400, "text and target required" *)
| TranslateText (out : jsstring).  (* 200, [{ text: out }] *)

Section translate.

(** The call of the language model is a parameter: [translateText text
    target] is the trimmed answer, or throws. *)
Variable translateText : val → val → exn jsstring.

(** The handler; [Throw] is an exception that leaves it.  This is the
    callback of the route alone, on the [req.body] that the body parser
    has produced; [translate_route] below puts the parser in front of
    it. *)
Definition translate (req_body : val) : exn translate_response :=
  let b := update_of req_body in
  text ← get b "text";
  target ← get b "target";
  if negb (truthy text) || negb (truthy target) then mret TranslateBad
  else
    let romhi := is_string target (js "romhi") in
    out ← translateText text (if romhi then VStr (js "hi") else target);
    mret (TranslateText (if romhi then toRomanHindi out else out)).

End translate.

(** ** The JSON body parser and the error handler

    [app.use(express.json({ limit: "2mb" }))] runs before every route, and
    the webhook route names [express.json()] once more, which finds the
    body already read.  The parser is in its default strict mode: of a
    request with a JSON content type it accepts a text that parses to an
    object or an array, and hands every other text, and a body over the
    limit, to the error handler as an error.  A request without a body, or
    with another content type, passes with an empty [req.body], which every
    handler reads as [req.body || {}]. *)
Inductive payload : Type :=
| NoJson            (* no body, or a content type other than JSON *)
| TooLarge          (* a JSON body over the 2mb limit *)
| Malformed         (* a JSON content type, a text that does not parse *)
| Json (v : val).   (* a JSON text and the value it denotes *)

(** [req.body] as the parser leaves it; [Throw] is [next(err)]. *)
Definition express_json (sent : payload) : exn val :=
  match sent with
  | NoJson => Ok (VObj [])
  | Json (VObj fields) => Ok (VObj fields)
  | Json (VArr elems) => Ok (VArr elems)
  | Json _ | TooLarge | Malformed => Throw
  end.

(** The last middleware, [(err, req, res, next) => ...], answers every error
    that reaches it with status 500; no route has run by then. *)
Definition server_error : nat := 500.

(** [POST /telegram/webhook] from the parser on. *)
Definition webhook_route (ADMIN_KEY secret : option string) (sent : payload)
    (studioBuffer : list Post.t) : nat * list Post.t :=
  match express_json sent with
  | Ok req_body => webhook ADMIN_KEY secret req_body studioBuffer
  | Throw => (server_error, studioBuffer)
  end.

(** [POST /api/notify/breaking] from the parser on. *)
Definition notify_route (ADMIN_KEY header : option string) (sent : payload)
    : nat :=
  match express_json sent with
  | Ok _ => notify ADMIN_KEY header
  | Throw => server_error
  end.

(** What a route with a handler of its own comes to: the error handler's
    answer, or the run of the handler. *)
Inductive served (A : Type) : Type :=
| ServerError             (* 500, [{ error: "server_error" }] *)
| Handled (run : A).
Arguments ServerError {A}.
Arguments Handled {A} run.

Section translate_route.
Variable translateText : val → val → exn jsstring.

(** [POST /api/translate] from the parser on. *)
Definition translate_route (sent : payload)
    : served (exn translate_response) :=
  match express_json sent with
  | Ok req_body => Handled (translate translateText req_body)
  | Throw => ServerError
  end.

End translate_route.

(** ** Decidable comparison of scores *)

#[export] Instance Qeq_decision (x y : Q) : Decision (x == y)%Q := Qeq_dec x y.

(** * Part II: properties *)

(** ** The dedup filter *)

Section dedupe_properties.
Context {A L : Type} `{!EqDecision L, !Countable L}.
Variable link : A → L.

Lemma filter_seen_sublist s items :
  filter_seen link s items `sublist_of` items.
Proof.
  revert s. induction items as [|i rest IH]; intros s; simpl; [done|].
  case_decide; [apply sublist_cons | apply sublist_skip]; apply IH.
Qed.

(** What the filter keeps was not in the set it started from. *)
Lemma filter_seen_fresh s items x :
  x ∈ filter_seen link s items → link x ∉ s.
Proof.
  revert s. induction items as [|i rest IH]; intros s; simpl.
  - by intros ?%elem_of_nil.
  - case_decide as Hi; [by apply IH|].
    intros [->|Hx]%elem_of_cons; [done|].
    apply IH in Hx. set_solver.
Qed.

Lemma filter_seen_NoDup s items : NoDup (link <$> filter_seen link s items).
Proof.
  revert s. induction items as [|i rest IH]; intros s; simpl.
  - constructor.
  - case_decide; [apply IH|]. rewrite fmap_cons. constructor; [|apply IH].
    intros (y & Hy & Hin)%list_elem_of_fmap.
    apply filter_seen_fresh in Hin. set_solver.
Qed.

(** Every link of the input that the set does not hold yet survives. *)
Lemma filter_seen_complete s items x :
  x ∈ items → link x ∉ s → link x ∈ link <$> filter_seen link s items.
Proof.
  revert s. induction items as [|i rest IH]; intros s; simpl.
  - by intros ?%elem_of_nil.
  - intros [->|Hx]%elem_of_cons Hs.
    + case_decide; [done|]. rewrite fmap_cons. apply elem_of_cons. by left.
    + case_decide; [by apply IH|].
      rewrite fmap_cons. apply elem_of_cons.
      destruct (decide (link x = link i)) as [->|Hne]; [by left|].
      right. apply IH; [done|]. set_solver.
Qed.

(** A link that the set already holds is dropped everywhere. *)
Lemma filter_seen_known s items v :
  v ∈ s → filter (λ y, link y = v) (filter_seen link s items) = [].
Proof.
  revert s. induction items as [|i rest IH]; intros s Hv; simpl; [done|].
  case_decide as Hi; [by apply IH|].
  rewrite filter_cons. case_decide as Heq.
  - by subst v.
  - apply IH. set_solver.
Qed.

(** The first item that carries a link is the one that is kept, and the
    only one. *)
Lemma filter_seen_first s items v j x :
  v ∉ s →
  list_find (λ y, link y = v) items = Some (j, x) →
  filter (λ y, link y = v) (filter_seen link s items) = [x].
Proof.
  revert s j. induction items as [|i rest IH]; intros s j Hv; simpl; [done|].
  case_decide as Heq.
  - intros [= <- <-]. case_decide as Hi; [by subst v|].
    rewrite filter_cons. case_decide; [|done].
    f_equal. apply filter_seen_known. set_solver.
  - destruct (list_find _ rest) as [[j' x']|] eqn:Hfind; [|done].
    simpl. intros [= <- <-].
    case_decide as Hi; [by eapply IH|].
    rewrite filter_cons. case_decide; [done|].
    eapply IH; [|done]. set_solver.
Qed.

(** A list whose links are pairwise distinct and new passes unchanged. *)
Lemma filter_seen_id s items :
  NoDup (link <$> items) → (∀ x, x ∈ items → link x ∉ s) →
  filter_seen link s items = items.
Proof.
  revert s. induction items as [|i rest IH]; intros s Hnd Hs; simpl; [done|].
  rewrite fmap_cons in Hnd. apply NoDup_cons in Hnd as [Hi Hnd].
  case_decide as Hin.
  - exfalso. eapply Hs; [apply elem_of_cons; by left | done].
  - f_equal. apply IH; [done|]. intros x Hx.
    assert (link x ≠ link i).
    { intros Heq. apply Hi. rewrite <- Heq. apply list_elem_of_fmap. eauto. }
    assert (link x ∉ s) by (apply Hs, elem_of_cons; by right).
    set_solver.
Qed.

(** The output carries the same links as the input. *)
Lemma dedupe_links_set items :
  list_to_set (C := gset L) (link <$> dedupeByLink link items)
  = list_to_set (link <$> items).
Proof.
  apply set_eq. intros v. rewrite !elem_of_list_to_set. split.
  - intros (y & -> & Hy)%list_elem_of_fmap. apply list_elem_of_fmap.
    exists y. split; [done|].
    eapply elem_of_sublist; [exact Hy | apply filter_seen_sublist].
  - intros (y & -> & Hy)%list_elem_of_fmap.
    apply filter_seen_complete; [done | set_solver].
Qed.

(** No subsequence with pairwise distinct links is longer. *)
Lemma dedupe_longest items items' :
  items' `sublist_of` items → NoDup (link <$> items') →
  length items' ≤ length (dedupeByLink link items).
Proof.
  intros Hsub Hnd.
  pose proof (filter_seen_NoDup ∅ items) as Hout.
  change (filter_seen link ∅ items) with (dedupeByLink link items) in Hout.
  rewrite <- (length_fmap link items').
  rewrite <- (length_fmap link (dedupeByLink link items)).
  rewrite <- (size_list_to_set (C := gset L) _ Hnd).
  rewrite <- (size_list_to_set (C := gset L) _ Hout).
  apply subseteq_size. rewrite dedupe_links_set.
  intros v. rewrite !elem_of_list_to_set.
  intros (y & -> & Hy)%list_elem_of_fmap. apply list_elem_of_fmap.
  exists y. split; [done|]. by eapply elem_of_sublist.
Qed.

(** C1. The dedup filter returns a subsequence of its input (original order
    preserved) in which no two items share a link; no subsequence of the
    input with that property is longer; of the items that carry a given
    link it keeps exactly the first one of the input; and so its length is
    at most the length of the input. *)
Theorem dedupeByLink_longest_first (items : list A) :
  let out := dedupeByLink link items in
  out `sublist_of` items ∧
  NoDup (link <$> out) ∧
  (∀ items', items' `sublist_of` items → NoDup (link <$> items') →
             length items' ≤ length out) ∧
  (∀ v j x, list_find (λ y, link y = v) items = Some (j, x) →
            filter (λ y, link y = v) out = [x]) ∧
  length out ≤ length items.
Proof.
  intros out. unfold out. split_and!.
  - apply filter_seen_sublist.
  - apply filter_seen_NoDup.
  - apply dedupe_longest.
  - intros v j x Hfind. eapply filter_seen_first; [set_solver | done].
  - apply sublist_length, filter_seen_sublist.
Qed.

(** C9. The dedup filter is idempotent. *)
Theorem dedupeByLink_idempotent (items : list A) :
  dedupeByLink link (dedupeByLink link items) = dedupeByLink link items.
Proof.
  apply filter_seen_id; [apply filter_seen_NoDup | set_solver].
Qed.

End dedupe_properties.

(** Three items, the third with the link of the first: the filter keeps
    the first two, and no duplicate-free subsequence is longer. *)
Lemma dedupeByLink_longest_first_witness :
  let items := [(1, "a"); (2, "b"); (3, "a")]%string in
  dedupeByLink snd items = [(1, "a"); (2, "b")]%string ∧
  length [(2, "b"); (3, "a")]%string ≤ length (dedupeByLink snd items) ∧
  filter (λ y, y.2 = "a"%string) (dedupeByLink snd items) = [(1, "a"%string)].
Proof.
  intros items.
  destruct (dedupeByLink_longest_first snd items) as (_ & _ & Hmax & Hfst & _).
  split; [by vm_compute|]. split.
  - apply Hmax.
    + apply sublist_cons. reflexivity.
    + vm_compute. apply NoDup_cons.
      split; [by intros [=]%list_elem_of_singleton | apply NoDup_singleton].
  - apply (Hfst "a"%string 0 (1, "a"%string)). reflexivity.
Defined.

(** ** The studio buffer *)

Section buffer.
Context {A : Type}.
Implicit Types (obj : A) (b objs : list A).

Lemma push_take obj b :
  length b ≤ studioMax → push obj b = take studioMax (obj :: b).
Proof.
  intros Hlen. unfold push. cbv zeta. case_decide as Hover.
  - rewrite removelast_firstn_len. simpl length in *.
    replace (Nat.pred (S (length b))) with studioMax by (simpl; lia). done.
  - symmetry. apply take_ge. simpl in *. lia.
Qed.

Lemma pushes_snoc objs obj b :
  pushes (objs ++ [obj]) b = push obj (pushes objs b).
Proof. unfold pushes. by rewrite foldl_snoc. Qed.

(** The buffer holds the last [studioMax] pushes, the latest first. *)
Lemma pushes_take objs : pushes objs [] = take studioMax (reverse objs).
Proof.
  induction objs as [|obj objs IH] using rev_ind; [done|].
  rewrite pushes_snoc, IH, reverse_snoc.
  rewrite push_take by (rewrite length_take; lia).
  unfold studioMax. simpl. f_equal. rewrite take_take. done.
Qed.

(** C2. From the empty buffer, any sequence of pushes leaves at most 50
    entries: the most recent pushes, the latest first.  A push prepends
    the item and drops the tail once the size would pass 50.  After 51
    distinct pushes the size is 50 and the item pushed first is gone. *)
Theorem studio_buffer_recent_first (objs : list A) :
  let b := pushes objs [] in
  b = take 50 (reverse objs) ∧
  length b ≤ 50 ∧
  (∀ obj b0, length b0 ≤ 50 → push obj b0 = take 50 (obj :: b0)) ∧
  (∀ first rest, objs = first :: rest → length rest = 50 → NoDup objs →
                 length b = 50 ∧ first ∉ b).
Proof.
  intros b. unfold b. rewrite pushes_take. unfold studioMax. split_and!.
  - done.
  - rewrite length_take. lia.
  - intros obj b0 Hlen. by apply push_take.
  - intros first rest -> Hlen [Hfirst Hnd]%NoDup_cons.
    rewrite reverse_cons, take_app_length'
      by (by rewrite length_reverse).
    split; [by rewrite length_reverse|].
    by rewrite elem_of_reverse.
Qed.

End buffer.

(** The pushes 0, 1, ..., 50: the buffer holds 50, 49, ..., 1. *)
Lemma studio_buffer_recent_first_witness :
  length (pushes (seq 0 51) []) = 50 ∧ 0 ∉ pushes (seq 0 51) [].
Proof.
  destruct (studio_buffer_recent_first (seq 0 51)) as (_ & _ & _ & Hfull).
  apply (Hfull 0 (seq 1 50)); [reflexivity | reflexivity | apply NoDup_seq].
Defined.

(** ** Replacement and the transliteration table *)

Section replace_properties.
Implicit Types (w rep s : jsstring) (c : N).

(** A literal matches only where it is a prefix; the continuation then
    runs on what follows it. *)
Lemma rmatch_lit {R : Type} w s (k : jsstring → option R) r :
  rmatch false (lit w) s k = Some r → ∃ s', s = w ++ s' ∧ k s' = Some r.
Proof.
  revert s. induction w as [|p w IH]; intros s; simpl.
  - intros Hk. by exists s.
  - destruct s as [|c s]; [done|]. unfold same_unit.
    case_bool_decide as Hpc; [|done]. subst c.
    intros (s' & -> & Hk)%IH. by exists s'.
Qed.

Lemma match_here_lit w s n :
  match_here false (lit w) s = Some n → w `prefix_of` s.
Proof. intros (s' & -> & _)%rmatch_lit. by exists s'. Qed.

Lemma match_here_unit c x s :
  match_here false (lit [c]) (x :: s)
  = if bool_decide (c = x) then Some 1 else None.
Proof.
  unfold match_here. simpl. case_bool_decide; [|done].
  f_equal. lia.
Qed.

(** The output of a replacement is made of the input and the replacement
    text. *)
Lemma replace_from_elem re rep skip s c :
  c ∈ replace_from re rep skip s → c ∈ rep ∨ c ∈ s.
Proof.
  revert skip. induction s as [|x s IH]; intros skip; simpl.
  - by intros ?%elem_of_nil.
  - destruct skip as [|n].
    + destruct (match_here false re (x :: s)) as [[|m]|].
      * intros [->|[?|?]%IH]%elem_of_cons; rewrite elem_of_cons; auto.
      * intros [?|[?|?]%IH]%elem_of_app; rewrite elem_of_cons; auto.
      * intros [->|[?|?]%IH]%elem_of_cons; rewrite elem_of_cons; auto.
    + intros [?|?]%IH; rewrite elem_of_cons; auto.
Qed.

Lemma replace_elem re rep s c :
  c ∉ rep → c ∉ s → c ∉ replace re rep s.
Proof. intros ?? [?|?]%replace_from_elem; done. Qed.

(** Replacing a single code unit removes every occurrence of it. *)
Lemma replace_from_unit_gone c rep skip s :
  c ∉ rep → c ∉ replace_from (lit [c]) rep skip s.
Proof.
  intros Hrep. revert skip. induction s as [|x s IH]; intros skip.
  - simpl. apply not_elem_of_nil.
  - destruct skip as [|n]; [|apply IH].
    cbn [replace_from]. rewrite match_here_unit.
    case_bool_decide as Hcx.
    + rewrite elem_of_app. intros [?|?]; [done|]. by eapply IH.
    + rewrite elem_of_cons. intros [?|?]; [done|]. by eapply IH.
Qed.

(** A literal that holds a code unit absent from the input never matches. *)
Lemma replace_absent w rep s c :
  c ∈ w → c ∉ s → replace (lit w) rep s = s.
Proof.
  intros Hw. unfold replace. induction s as [|x s IH]; intros Hs; [done|].
  cbn [replace_from].
  destruct (match_here false (lit w) (x :: s)) as [[|m]|] eqn:Hm.
  - f_equal. apply IH. set_solver.
  - exfalso. apply match_here_lit in Hm as [s' Hs'].
    apply Hs. rewrite Hs'. apply elem_of_app. by left.
  - f_equal. apply IH. set_solver.
Qed.

Lemma apply_map_absent rules s c :
  Forall (λ rule, c ∉ rule.2) rules → c ∉ s →
  c ∉ RomanHindi.apply_map rules s.
Proof.
  unfold RomanHindi.apply_map. intros Hrules. revert s.
  induction Hrules as [|rule rules Hrule _ IH]; intros s Hs; simpl; [done|].
  apply IH. by apply replace_elem.
Qed.

End replace_properties.

(** Once the table has run, no [0x0939] (the letter ha) is left: its own
    rule removes it and the four rules behind it write ASCII only. *)
Lemma apply_map_no_ha (str : jsstring) :
  (0x0939)%N ∉ RomanHindi.apply_map RomanHindi.map str.
Proof.
  assert (RomanHindi.map
          = take 42 RomanHindi.map
              ++ [(lit [0x0939]%N, js "h")] ++ drop 43 RomanHindi.map)
    as -> by reflexivity.
  unfold RomanHindi.apply_map. rewrite !foldl_app.
  apply apply_map_absent.
  - apply (bool_decide_unpack _). by vm_compute.
  - simpl foldl at 1. apply replace_from_unit_gone.
    apply (bool_decide_unpack _). by vm_compute.
Qed.

(** Both whole-word patterns hold the letter ha, so the two replacements
    of the [return] statement never fire. *)
Lemma toRomanHindi_table_only (str : jsstring) :
  toRomanHindi str = RomanHindi.apply_map RomanHindi.map str.
Proof.
  unfold toRomanHindi. cbv zeta.
  pose proof (apply_map_no_ha str) as Hha.
  rewrite (replace_absent RomanHindi.hai _ _ (0x0939)%N); [|set_solver|done].
  apply (replace_absent RomanHindi.nahin _ _ (0x0939)%N); [set_solver|done].
Qed.

(** The conjunct rules stand at the head of the table and win over the
    rules of their components. *)
Lemma toRomanHindi_conjuncts :
  toRomanHindi [0x0915; 0x094D; 0x0937]%N = js "ksh" ∧
  toRomanHindi [0x091C; 0x094D; 0x091E]%N = js "gya" ∧
  toRomanHindi [0x0924; 0x094D; 0x0930]%N = js "tra".
Proof. by vm_compute. Qed.

(** C7 (the code departs from the claim).  On the two whole-word inputs the
    function returns the single-character renderings with the vowel signs
    left in place, not the configured words: the table has already turned
    ha into "h" when the whole-word patterns are tried. *)
Theorem toRomanHindi_whole_words :
  toRomanHindi RomanHindi.hai = js "h" ++ [0x0948]%N ∧
  toRomanHindi RomanHindi.nahin = js "nh" ++ [0x0940]%N ++ js "n" ∧
  toRomanHindi RomanHindi.hai ≠ js "hai" ∧
  toRomanHindi RomanHindi.nahin ≠ js "nahi".
Proof. by vm_compute. Qed.

(** ** [/api/feed] *)

Section feed_properties.
Variable fanout : list string → list FeedItem.

Lemma sources_India : sources_get "India" = TArray India.
Proof. by vm_compute. Qed.

Lemma prototype_keys_not_own :
  Forall (λ k, sources !! k = None) object_prototype_keys.
Proof. apply (bool_decide_unpack _). by vm_compute. Qed.

(** A name that is neither a category nor a property of the prototype is
    served from the India list, under the requested name. *)
Lemma feed_fallback (c : string) :
  sources !! c = None → c ∉ object_prototype_keys →
  feed fanout (Some c) = FeedJson c (dedupeByLink link (fanout India)).
Proof.
  intros Hown Hproto. unfold feed, sources_get at 1. simpl.
  rewrite Hown. case_decide; [done|]. simpl. by rewrite sources_India.
Qed.

(** A name of the prototype is answered 500. *)
Lemma feed_inherited (c : string) :
  c ∈ object_prototype_keys → feed fanout (Some c) = FeedFailed.
Proof.
  intros Hc. unfold feed, sources_get at 1. simpl.
  pose proof prototype_keys_not_own as Hown.
  rewrite Forall_forall in Hown. rewrite (Hown c Hc).
  by case_decide.
Qed.

(** The route answers 200 or 500, whatever the category. *)
Lemma feed_no_client_error (query : option string) :
  feed_status (feed fanout query) = 200 ∨ feed_status (feed fanout query) = 500.
Proof. destruct (feed fanout query); simpl; auto. Qed.

(** Every 200 response carries the requested name, or "India" when the
    request names no category. *)
Lemma feed_echo_on_success (query : option string) :
  feed_status (feed fanout query) = 200 →
  feed_category (feed fanout query) = Some (default "India"%string query).
Proof. unfold feed. cbv zeta. by destruct (table_or _ _). Qed.

(** C8 (the code departs from the claim).  "constructor" is not a category
    of the table, yet the request is not served from the India list: the
    read [sources[category]] finds the inherited [Object.prototype]
    property, the fallback is skipped, and the response is 500. *)
Theorem feed_constructor_fails :
  sources !! "constructor"%string = None ∧
  feed fanout (Some "constructor"%string) = FeedFailed ∧
  feed_status (feed fanout (Some "constructor"%string)) = 500.
Proof. by vm_compute. Qed.

(** C10 (the code departs from the claim).  For the category "__proto__"
    the response has no [category] field at all: it is the 500 response
    of the same defect as in C8. *)
Theorem feed_proto_not_echoed :
  feed_category (feed fanout (Some "__proto__"%string)) = None ∧
  feed_category (feed fanout (Some "__proto__"%string))
    ≠ Some "__proto__"%string.
Proof. by vm_compute. Qed.

End feed_properties.

(** ** The keyword test *)

Section keyword_properties.
Implicit Types (w s : jsstring) (p c : N).

(** Comparing through the upper-case mapping and comparing through the
    lower-case mapping identify the same pairs of code units. *)
Lemma same_unit_lower p c :
  same_unit true p c = bool_decide (lower p = lower c).
Proof.
  unfold same_unit. apply bool_decide_ext.
  unfold canonicalize, lower. repeat case_decide; lia.
Qed.

Lemma rmatch_lit_ci {R : Type} w s (k : jsstring → option R) :
  rmatch true (lit w) s k
  = if starts_with w s then k (drop (length w) s) else None.
Proof.
  revert s. induction w as [|p w IH]; intros s; [done|].
  destruct s as [|c s]; [done|]. cbn [lit foldr rmatch starts_with].
  rewrite same_unit_lower. fold (lit w). rewrite IH.
  by destruct (bool_decide _).
Qed.

(** Where the pattern matches: at the head of one of the three words. *)
Lemma keywords_here s :
  (if match_here true Breaking.keywords s is Some _ then true else false)
  = starts_with (js "breaking") s || starts_with (js "live") s
    || starts_with (js "update") s.
Proof.
  unfold match_here, Breaking.keywords. cbn [rmatch].
  rewrite !rmatch_lit_ci.
  destruct (starts_with (js "breaking") s); [done|].
  destruct (starts_with (js "live") s); [done|].
  destruct (starts_with (js "update") s); [|done].
  simpl orb. by destruct (drop _ s) as [|c s']; [|destruct (same_unit _ _ _)].
Qed.

Lemma test_keywords s :
  test true Breaking.keywords s
  = mentions (js "breaking") s || mentions (js "live") s
    || mentions (js "update") s.
Proof.
  induction s as [|c s IH].
  - done.
  - cbn [test mentions]. rewrite IH.
    pose proof (keywords_here (c :: s)) as Hhere.
    destruct (match_here true Breaking.keywords (c :: s)); symmetry in Hhere.
    + destruct (starts_with (js "breaking") (c :: s)),
        (starts_with (js "live") (c :: s)),
        (starts_with (js "update") (c :: s)); try done;
        simpl; by rewrite ?orb_true_r.
    + apply orb_false_iff in Hhere as [[-> ->]%orb_false_iff ->]. done.
Qed.

Lemma starts_with_app w w' s :
  starts_with (w ++ w') s = true → starts_with w s = true.
Proof.
  revert s. induction w as [|p w IH]; intros s; [done|].
  destruct s as [|c s]; [done|]. simpl.
  intros [-> ?%IH]%andb_true_iff. done.
Qed.

Lemma mentions_app w w' s :
  mentions (w ++ w') s = true → mentions w s = true.
Proof.
  induction s as [|c s IH]; cbn [mentions].
  - rewrite !orb_false_r. apply starts_with_app.
  - intros [?%starts_with_app | ?%IH]%orb_true_iff; apply orb_true_iff; auto.
Qed.

(** The factor of the source is the boost of the specification. *)
Lemma boost_keywordBoost (i : Entry.t) :
  Breaking.boost i = keywordBoost (default [] (Entry.title i)).
Proof.
  unfold Breaking.boost, keywordBoost. rewrite test_keywords.
  set (s := default [] (Entry.title i)).
  destruct (mentions (js "updates") s) eqn:Hs; [|by rewrite orb_false_r].
  apply (mentions_app (js "update") (js "s")) in Hs. rewrite Hs.
  by rewrite !orb_true_r.
Qed.

End keyword_properties.

(** ** Sorting by descending score *)

Section sort_properties.
Context {A : Type}.
Variable f : A → Q.
Let cmp : A → A → Q := λ a b, (f b - f a)%Q.
Let after : relation A := λ a b, (f b <= f a)%Q.

Lemma sort_insert_perm x l : sort_insert cmp x l ≡ₚ x :: l.
Proof.
  induction l as [|y l IH]; simpl; [done|].
  destruct (Qlt_le_dec _ _); [|done].
  rewrite IH. apply Permutation_swap.
Qed.

Lemma sort_perm l : sort cmp l ≡ₚ l.
Proof.
  induction l as [|x l IH]; simpl; [done|].
  by rewrite sort_insert_perm, IH.
Qed.

Lemma sort_insert_sorted x l :
  StronglySorted after l → StronglySorted after (sort_insert cmp x l).
Proof.
  induction 1 as [|y l Hl IH Hy]; simpl.
  - repeat constructor.
  - destruct (Qlt_le_dec (cmp y x) 0) as [Hlt|Hle];
      [unfold cmp in Hlt | unfold cmp in Hle].
    + constructor; [done|].
      rewrite sort_insert_perm. constructor; [|done].
      unfold after. lra.
    + constructor; [by constructor|].
      constructor; [unfold after; lra|].
      eapply Forall_impl; [exact Hy|]. unfold after. intros z Hz. lra.
Qed.

Lemma sort_sorted l : StronglySorted after (sort cmp l).
Proof.
  induction l as [|x l IH]; simpl; [constructor|].
  by apply sort_insert_sorted.
Qed.

Lemma sorted_lookup l j j' a b :
  StronglySorted after l → j < j' →
  l !! j = Some a → l !! j' = Some b → (f b <= f a)%Q.
Proof.
  intros Hl. revert j j'.
  induction Hl as [|x l Hl IH Hx]; intros j j' Hlt; [done|].
  destruct j' as [|j']; [lia|]. destruct j as [|j]; simpl.
  - intros [= <-] Hb. rewrite Forall_forall in Hx.
    apply Hx. by eapply list_elem_of_lookup_2.
  - apply IH. lia.
Qed.

(** In the sorted array a strictly higher score stands strictly earlier. *)
Lemma sort_order l j j' a b :
  sort cmp l !! j = Some a → sort cmp l !! j' = Some b →
  (f b < f a)%Q → j < j'.
Proof.
  intros Ha Hb Hlt.
  destruct (decide (j < j')) as [|Hge]; [done|]. exfalso.
  destruct (decide (j = j')) as [->|Hne].
  - rewrite Ha in Hb. injection Hb as ->. lra.
  - assert (f a <= f b)%Q; [|lra].
    eapply (sorted_lookup _ j' j); [apply sort_sorted | lia | done..].
Qed.

End sort_properties.

(** ** Scores *)

Section score_properties.
Variable parseDate : jsstring → option Z.
Variable safeDomain : string → string.

#[local] Abbreviation getTime := (Breaking.getTime parseDate).
#[local] Abbreviation ageMin := (Breaking.ageMin parseDate).
#[local] Abbreviation entry_score := (Breaking.entry_score parseDate).
#[local] Abbreviation collect := (Breaking.collect parseDate safeDomain).
#[local] Abbreviation breaking := (Breaking.breaking parseDate safeDomain).
#[local] Abbreviation undated := (Breaking.undated parseDate).

Lemma boost_cases (i : Entry.t) : Breaking.boost i = 1%Q ∨ Breaking.boost i = 2%Q.
Proof. unfold Breaking.boost. destruct (test _ _ _); auto. Qed.

Lemma entry_score_div now i :
  (entry_score now i == Breaking.boost i / Qmax 1 (ageMin now i))%Q.
Proof. unfold Breaking.entry_score, Qdiv. by rewrite Qmult_1_l. Qed.

Lemma age_floor_pos now i : (0 < Qmax 1 (ageMin now i))%Q.
Proof. pose proof (Q.le_max_l 1 (ageMin now i)). lra. Qed.

Lemma undated_age now i :
  undated i → (5999940000 ≤ now)%Z → (99999 <= ageMin now i)%Q.
Proof.
  intros Hi Hnow. unfold Breaking.ageMin.
  assert (getTime (Entry.pubDate i) = None ∨ getTime (Entry.pubDate i) = Some 0%Z)
    as [->| ->].
  { destruct Hi as [->|[->|?]]; auto. }
  - lra.
  - apply Qle_shift_div_l; [lra|].
    rewrite Z.sub_0_r. change (99999 * 60000)%Q with (inject_Z 5999940000).
    by rewrite <- Zle_Qle.
Qed.

Lemma undated_score now i :
  undated i → (5999940000 ≤ now)%Z → (entry_score now i <= 2 # 99999)%Q.
Proof.
  intros Hi Hnow. rewrite entry_score_div.
  pose proof (undated_age now i Hi Hnow) as Hage.
  pose proof (Q.le_max_r 1 (ageMin now i)) as Hmax.
  apply Qle_shift_div_r; [apply age_floor_pos|].
  destruct (boost_cases i) as [-> | ->]; lra.
Qed.

Lemma recent_score now i t :
  getTime (Entry.pubDate i) = Some t → (2 * (now - t) < 5999940000)%Z →
  (2 # 99999 < entry_score now i)%Q.
Proof.
  intros Ht Hrecent. rewrite entry_score_div.
  assert (ageMin now i < 99999 # 2)%Q as Hage.
  { unfold Breaking.ageMin. rewrite Ht. apply Qlt_shift_div_r; [lra|].
    assert ((99999 # 2) * 60000 == inject_Z 2999970000)%Q as ->
      by (by vm_compute).
    rewrite <- Zlt_Qlt. lia. }
  assert (Qmax 1 (ageMin now i) < 99999 # 2)%Q as Hmax.
  { apply Q.max_lub_lt; [lra | done]. }
  apply Qlt_shift_div_l; [apply age_floor_pos|].
  destruct (boost_cases i) as [-> | ->]; lra.
Qed.

(** In the response an entry without a usable date stands behind every
    collected entry that is recent. *)
Lemma undated_behind_recent collected now url i now' url' i' t' j :
  undated i → (5999940000 ≤ now)%Z →
  getTime (Entry.pubDate i') = Some t' → (2 * (now' - t') < 5999940000)%Z →
  (now', url', i') ∈ collected →
  breaking collected !! j = Some (collect now url i) →
  ∃ j', j' < j ∧ breaking collected !! j' = Some (collect now' url' i').
Proof.
  intros Hi Hnow Ht' Hrecent Hin. unfold Breaking.breaking. cbv zeta.
  set (items := _ <$> collected).
  intros [Hj Hj5]%lookup_take_Some.
  assert (collect now' url' i' ∈ sort (λ a b, Breaking.score b - Breaking.score a)%Q items)
    as [j' Hj']%list_elem_of_lookup_1.
  { rewrite (sort_perm Breaking.score). unfold items.
    apply list_elem_of_fmap. by exists (now', url', i'). }
  assert (j' < j).
  { eapply (sort_order Breaking.score); [exact Hj' | exact Hj |]. simpl.
    pose proof (undated_score now i Hi Hnow).
    pose proof (recent_score now' i' t' Ht' Hrecent). lra. }
  exists j'. split; [done|]. rewrite lookup_take_lt by lia. done.
Qed.

(** Every item of the response is the object pushed for one of the
    collected entries. *)
Lemma breaking_item_collected collected it :
  it ∈ breaking collected →
  ∃ now url i, (now, url, i) ∈ collected ∧ it = collect now url i.
Proof.
  unfold Breaking.breaking. cbv zeta. intros Hin.
  pose proof (elem_of_prefix _ _ _ Hin (prefix_take _ 5)) as Hin'.
  rewrite (sort_perm Breaking.score) in Hin'.
  apply list_elem_of_fmap in Hin' as ([[now url] i] & -> & Hc).
  by exists now, url, i.
Qed.


End score_properties.


(** ** The webhook *)

Ltac exn_simpl :=
  repeat (progress (unfold mbind, mret, exn_bind, exn_ret in *; simpl in *)).

Section webhook_properties.
Implicit Types (m v : val) (k : string) (buf : list Post.t).

(** Reading a property only throws on [undefined] and [null]. *)
Lemma get_defined v k :
  v ≠ VUndefined → v ≠ VNull → ∃ x, get v k = Ok x.
Proof. destruct v; simpl; try done; try case_decide; eauto. Qed.

Lemma get_opt_total v k : ∃ x, get_opt v k = Ok x.
Proof. destruct v; simpl; try case_decide; eauto. Qed.

Lemma update_of_defined req_body :
  update_of req_body ≠ VUndefined ∧ update_of req_body ≠ VNull.
Proof.
  unfold update_of. destruct (truthy req_body) eqn:Ht; [|done].
  split; by intros ->.
Qed.

(** The classification of a delivery never throws. *)
Lemma classify_total req_body : ∃ d, classify (update_of req_body) = Ok d.
Proof.
  destruct (update_of_defined req_body) as [Hu Hn]. unfold classify.
  destruct (get_defined _ "channel_post" Hu Hn) as [ch ->].
  destruct (get_defined _ "message" Hu Hn) as [msg ->]. exn_simpl.
  destruct (get_opt_total ch "chat") as [chat ->]. exn_simpl.
  destruct (get_opt_total chat "type") as [ty ->]. exn_simpl.
  destruct (is_string ty _); [eauto|].
  destruct (get_opt_total msg "chat") as [mchat ->]. exn_simpl.
  destruct (get_opt_total mchat "type") as [mty ->]. exn_simpl.
  destruct (is_string mty _); eauto.
Qed.

(** What is stored for a recognized delivery is the post of its message. *)
Lemma ingest_stores req_body buf m p :
  classify (update_of req_body) = Ok (Broadcast m)
  ∨ classify (update_of req_body) = Ok (Direct m) →
  post_of m = Ok p → ingest req_body buf = Ok (push p buf).
Proof. unfold ingest. intros [-> | ->] Hp; exn_simpl; by rewrite Hp. Qed.

Lemma ingest_unrecognized req_body buf :
  classify (update_of req_body) = Ok Unrecognized →
  ingest req_body buf = Ok buf.
Proof. unfold ingest. by intros ->. Qed.

(** The buffer changes only by a push. *)
Lemma webhook_buffer ADMIN_KEY secret req_body buf :
  (webhook ADMIN_KEY secret req_body buf).2 = buf
  ∨ ∃ p, (webhook ADMIN_KEY secret req_body buf).2 = push p buf.
Proof.
  unfold webhook. destruct (_ && _); [by left|].
  unfold ingest. destruct (classify_total req_body) as [d ->]. exn_simpl.
  destruct d as [m|m|]; [| |by left];
    (destruct (post_of m) as [p|]; exn_simpl; [right; by exists p | by left]).
Qed.

(** The handler, once the parser has let the delivery through. *)
Lemma webhook_handler_status ADMIN_KEY secret req_body buf :
  let r := webhook ADMIN_KEY secret req_body buf in
  (configured ADMIN_KEY = false ∨ secret = ADMIN_KEY → r.1 = 200) ∧
  (configured ADMIN_KEY = true → secret ≠ ADMIN_KEY → r = (401, buf)) ∧
  (classify (update_of req_body) = Ok Unrecognized → r.2 = buf) ∧
  (ingest req_body buf = Throw → r.2 = buf).
Proof.
  intros r. unfold r, webhook. split_and!.
  - intros [-> | ->].
    + simpl. by destruct (ingest _ _).
    + rewrite bool_decide_eq_true_2 by done. rewrite andb_false_r.
      by destruct (ingest _ _).
  - intros -> Hne. by rewrite bool_decide_eq_false_2.
  - intros Hd. destruct (_ && _); [done|].
    by rewrite (ingest_unrecognized _ _ Hd).
  - intros ->. by destruct (_ && _).
Qed.

(** What the parser lets through is an object or an array, so the
    fallback of [req.body || {}] is never taken on it. *)
Lemma express_json_accepts sent req_body :
  express_json sent = Ok req_body →
  update_of req_body = req_body ∧
  (sent = NoJson ∧ req_body = VObj [] ∨ sent = Json req_body).
Proof.
  destruct sent as [| | |[]]; simpl; try done; intros [= <-]; auto.
Qed.

Lemma express_json_rejects sent :
  express_json sent = Throw ↔
  sent = TooLarge ∨ sent = Malformed
  ∨ ∃ v, sent = Json v ∧ (∀ fields, v ≠ VObj fields) ∧ (∀ elems, v ≠ VArr elems).
Proof.
  split.
  - destruct sent as [| | |v]; simpl; [done|auto|auto|].
    intros Hv. right. right. exists v.
    destruct v; try done; split_and!; done.
  - intros [-> | [-> | (v & -> & Hobj & Harr)]]; [done|done|].
    destruct v; try done; [by destruct (Harr elems) | by destruct (Hobj fields)].
Qed.

(** C4 (amended).  For a delivery whose body the JSON body parser accepts,
    the endpoint answers 200 whenever no secret is configured or the
    secret header equals the configured one: for deliveries of
    unrecognized shape, which leave the buffer as it is, and for
    deliveries whose processing throws, which do so too.  A delivery that
    fails the secret check is answered 401 and buffers nothing.  A
    delivery whose body the parser rejects does not reach the handler: the
    error handler answers 500 and nothing is buffered, whatever the secret
    header.  No other status is sent. *)
Theorem webhook_status ADMIN_KEY secret (sent : payload) buf :
  let r := webhook_route ADMIN_KEY secret sent buf in
  (∀ req_body, express_json sent = Ok req_body →
     (configured ADMIN_KEY = false ∨ secret = ADMIN_KEY → r.1 = 200) ∧
     (configured ADMIN_KEY = true → secret ≠ ADMIN_KEY → r = (401, buf)) ∧
     (classify (update_of req_body) = Ok Unrecognized → r.2 = buf) ∧
     (ingest req_body buf = Throw → r.2 = buf)) ∧
  (express_json sent = Throw → r = (500, buf)) ∧
  (r.1 = 200 ∨ r.1 = 401 ∨ r.1 = 500).
Proof.
  intros r. unfold r, webhook_route. split_and!.
  - intros req_body ->. apply webhook_handler_status.
  - by intros ->.
  - destruct (express_json sent) as [req_body|]; [|auto].
    unfold webhook. destruct (_ && _); [auto|].
    destruct (ingest _ _); auto.
Qed.

End webhook_properties.

(** A delivery with the configured secret and a body of no known shape:
    200, nothing buffered.  A delivery whose body is the JSON text [5],
    with no secret configured: 500, nothing buffered. *)
Lemma webhook_status_witness :
  webhook_route (Some "s3cret"%string) (Some "s3cret"%string)
    (Json (VObj [("poll"%string, VNull)])) []
  = (200, []) ∧
  webhook_route None None (Json (VNum 5)) [] = (500, []).
Proof.
  split.
  - destruct (webhook_status (Some "s3cret"%string) (Some "s3cret"%string)
                (Json (VObj [("poll"%string, VNull)])) []) as (Hin & _ & _).
    destruct (Hin (VObj [("poll"%string, VNull)]) eq_refl)
      as (Hok & _ & Hsame & _).
    apply injective_projections; simpl.
    + apply Hok. by right.
    + apply Hsame. reflexivity.
  - destruct (webhook_status None None (Json (VNum 5)) []) as (_ & Hout & _).
    apply Hout. reflexivity.
Defined.

(** C4, counterexample.  With a secret configured, a delivery that carries
    another one is answered 401, not a success status. *)
Lemma webhook_wrong_secret :
  webhook (Some "s3cret"%string) (Some "guess"%string) (VObj []) []
  = (401, []) ∧
  (webhook (Some "s3cret"%string) (Some "guess"%string) (VObj []) []).1 ≠ 200.
Proof. split; [reflexivity | by vm_compute]. Qed.

(** ** The stored post *)

Section post_properties.
Implicit Types (m v ph t c : val) (p : Post.t) (buf : list Post.t).

(** The kind and the media reference, by cases on the video and the photo
    of the message. *)
Lemma media_video m ph v f :
  get m "photo" = Ok ph → get m "video" = Ok v → truthy v = true →
  ∀ r, media m = Ok r → get v "file_id" = Ok f → r = (video, f).
Proof.
  intros Hph Hv Htv r. unfold media. rewrite Hph, Hv. exn_simpl.
  destruct (get_opt ph "length") as [len|]; exn_simpl; [|done].
  destruct (truthy len); exn_simpl.
  - destruct (slice_last ph) as [l|]; exn_simpl; [|done].
    destruct (get (index0 l) "file_id"); exn_simpl; [|done].
    rewrite Htv. intros Hr Hf. rewrite Hf in Hr. exn_simpl. congruence.
  - rewrite Htv. intros Hr Hf. rewrite Hf in Hr. exn_simpl. congruence.
Qed.

Lemma media_photo m l x v :
  get m "photo" = Ok (VArr l) → last l = Some x →
  get m "video" = Ok v → truthy v = false →
  ∀ r, media m = Ok r → get x "file_id" = Ok r.2 ∧ r.1 = photo.
Proof.
  intros Hph Hlast Hv Htv r. unfold media. rewrite Hph, Hv.
  apply last_Some in Hlast as [l' ->]. exn_simpl.
  rewrite length_app, Nat.add_sub, drop_app_length. simpl length.
  assert (Qeq_bool (inject_Z (Z.of_nat (length l' + 1))) 0 = false) as ->.
  { apply not_true_is_false. intros Hz%Qeq_bool_eq.
    unfold Qeq in Hz. simpl in Hz. lia. }
  simpl. destruct (get x "file_id") as [f|]; [|done].
  rewrite Htv. by intros [= <-].
Qed.

Lemma media_text m ph v :
  get m "photo" = Ok ph → ph = VUndefined ∨ ph = VArr [] →
  get m "video" = Ok v → truthy v = false →
  media m = Ok (text, VNull).
Proof.
  intros Hph Habs Hv Htv. unfold media. rewrite Hph, Hv.
  destruct Habs as [-> | ->]; exn_simpl; by rewrite Htv.
Qed.

(** A string has a [length] and a [slice] too: a non-empty one in the
    photo field passes the test, and the [file_id] of its last code unit
    is [undefined]. *)
Lemma media_photo_string m s v :
  get m "photo" = Ok (VStr s) → s ≠ [] →
  get m "video" = Ok v → truthy v = false →
  media m = Ok (photo, VUndefined).
Proof.
  intros Hph Hs Hv Htv. unfold media. rewrite Hph, Hv.
  destruct (last s) as [c|] eqn:Hlast; [|by apply last_None in Hlast].
  apply last_Some in Hlast as [s' ->]. exn_simpl.
  rewrite length_app, Nat.add_sub, drop_app_length. simpl length.
  assert (Qeq_bool (inject_Z (Z.of_nat (length s' + 1))) 0 = false) as ->.
  { apply not_true_is_false. intros Hz%Qeq_bool_eq.
    unfold Qeq in Hz. simpl in Hz. lia. }
  simpl. by rewrite Htv.
Qed.

(** Every other photo field whose message is processed to the end fails
    the test: [undefined], [null], a boolean, a number, an empty list, an
    empty string, and an object without a truthy [length] (with one,
    [slice] is not a function and the call throws). *)
Lemma media_text_otherwise m ph v r :
  get m "photo" = Ok ph →
  (∀ l, ph = VArr l → l = []) → (∀ s, ph = VStr s → s = []) →
  get m "video" = Ok v → truthy v = false →
  media m = Ok r → r = (text, VNull).
Proof.
  intros Hph Harr Hstr Hv Htv. unfold media. rewrite Hph, Hv.
  destruct ph as [| | | |s|l|fields]; exn_simpl;
    try (rewrite Htv; by intros [= <-]).
  - rewrite (Hstr s eq_refl). simpl. rewrite Htv. by intros [= <-].
  - rewrite (Harr l eq_refl). simpl. rewrite Htv. by intros [= <-].
  - destruct (truthy (field fields "length")); exn_simpl; [done|].
    rewrite Htv. by intros [= <-].
Qed.

Lemma post_of_media m p :
  post_of m = Ok p → media m = Ok (Post.type p, Post.file_id p).
Proof.
  unfold post_of. destruct (media m) as [[ty fid]|]; exn_simpl; [|done].
  destruct (body m) as [b|]; exn_simpl; [|done].
  destruct (get m "message_id"); exn_simpl; [|done].
  destruct (derive_title b); exn_simpl; [|done].
  destruct (get m "date"); exn_simpl; [|done].
  by intros [= <-].
Qed.

Lemma post_of_body m p :
  post_of m = Ok p →
  body m = Ok (Post.caption p) ∧ derive_title (Post.caption p) = Ok (Post.title p).
Proof.
  unfold post_of. destruct (media m) as [[ty fid]|]; exn_simpl; [|done].
  destruct (body m) as [b|]; exn_simpl; [|done].
  destruct (get m "message_id"); exn_simpl; [|done].
  destruct (derive_title b) eqn:Ht; exn_simpl; [|done].
  destruct (get m "date"); exn_simpl; [|done].
  by intros [= <-].
Qed.

(** C5 (amended).  For an ingested delivery the stored kind follows the
    priority video > photo > text: with a video attachment the kind is
    video and the media reference is that of the video, also when a photo
    list is present; otherwise, with a photo list that is not empty, the
    kind is photo and the media reference is that of the last variant of
    the list, and with a photo field that is a non-empty string the kind
    is photo too, the media reference being undefined; otherwise, whatever
    else the photo field holds, the kind is text and there is no media
    reference. *)
Theorem post_kind_priority req_body buf m p ph v :
  classify (update_of req_body) = Ok (Broadcast m)
  ∨ classify (update_of req_body) = Ok (Direct m) →
  post_of m = Ok p →
  get m "photo" = Ok ph → get m "video" = Ok v →
  ingest req_body buf = Ok (push p buf) ∧
  (truthy v = true →
     Post.type p = video ∧ get v "file_id" = Ok (Post.file_id p)) ∧
  (truthy v = false → ∀ l x, ph = VArr l → last l = Some x →
     Post.type p = photo ∧ get x "file_id" = Ok (Post.file_id p)) ∧
  (truthy v = false → ∀ s, ph = VStr s → s ≠ [] →
     Post.type p = photo ∧ Post.file_id p = VUndefined) ∧
  (truthy v = false →
     (∀ l, ph = VArr l → l = []) → (∀ s, ph = VStr s → s = []) →
     Post.type p = text ∧ Post.file_id p = VNull).
Proof.
  intros Hd Hp Hph Hv. pose proof (post_of_media m p Hp) as Hm. split_and!.
  - by eapply ingest_stores.
  - intros Htv.
    assert (∃ f, get v "file_id" = Ok f) as [f Hf].
    { apply get_defined; intros ->; done. }
    pose proof (media_video m ph v f Hph Hv Htv _ Hm Hf) as [= -> ->]. done.
  - intros Htv l x -> Hlast.
    destruct (media_photo m l x v Hph Hlast Hv Htv _ Hm) as [Hf Hk]. done.
  - intros Htv s -> Hs. rewrite (media_photo_string m s v Hph Hs Hv Htv) in Hm.
    by injection Hm as <- <-.
  - intros Htv Harr Hstr.
    by pose proof (media_text_otherwise m ph v _ Hph Harr Hstr Hv Htv Hm)
      as [= -> ->].
Qed.

End post_properties.

(** The photo post: kind photo, media reference of the last variant. *)
Lemma post_kind_priority_witness :
  ingest (VObj [("channel_post"%string, flood_alert)]) []
  = Ok (push flood_alert_post []) ∧
  Post.type flood_alert_post = photo ∧
  get (VObj [("file_id"%string, VStr (js "large"))]) "file_id"
  = Ok (Post.file_id flood_alert_post).
Proof.
  destruct (post_kind_priority (VObj [("channel_post"%string, flood_alert)]) []
              flood_alert flood_alert_post two_sizes VUndefined)
    as (Hin & _ & Hphoto & _ & _).
  - left. reflexivity.
  - reflexivity.
  - reflexivity.
  - reflexivity.
  - split; [exact Hin|]. eapply Hphoto; reflexivity.
Defined.

(** C5, counterexample.  A post with a photo list and a video is stored
    with kind video and the media reference of the video. *)
Lemma photo_with_video_stored_as_video :
  let b := (webhook None None
              (VObj [("channel_post"%string, clip_with_photo)]) []).2 in
  Post.type <$> head b = Some video ∧
  Post.type <$> head b ≠ Some photo ∧
  Post.file_id <$> head b = Some (VStr (js "clip")).
Proof. by vm_compute. Qed.

(** A channel post whose photo field is the string "abc", with no video:
    stored with kind photo and an undefined media reference. *)
Lemma string_photo_stored_as_photo :
  let m := VObj [ channel_chat; ("message_id", VNum 10);
                  ("photo", VStr (js "abc"));
                  ("date", VNum 1700000300) ]%string in
  let b := (webhook None None (VObj [("channel_post"%string, m)]) []).2 in
  Post.type <$> head b = Some photo ∧
  Post.file_id <$> head b = Some VUndefined.
Proof. by vm_compute. Qed.

Section body_properties.
Implicit Types (m t c : val) (p : Post.t) (buf : list Post.t).

Lemma derive_title_string b ttl :
  derive_title b = Ok ttl → ∃ s, b = VStr s ∧ ttl = take 100 (first_line s).
Proof. destruct b; simpl; try done. intros [= <-]. eauto. Qed.

(** C6 (amended).  For an ingested delivery the stored body is the text
    field when that is truthy (a string that is not empty), else the
    caption field when that is, else the empty string: with both fields
    present the text field wins.  The title is the first line of the body,
    cut to 100 code units. *)
Theorem post_body_text_first req_body buf m p t c :
  classify (update_of req_body) = Ok (Broadcast m)
  ∨ classify (update_of req_body) = Ok (Direct m) →
  post_of m = Ok p →
  get m "text" = Ok t → get m "caption" = Ok c →
  ingest req_body buf = Ok (push p buf) ∧
  Post.caption p = (if truthy t then t else if truthy c then c else VStr []) ∧
  (truthy t = true → Post.caption p = t) ∧
  (∃ s, Post.caption p = VStr s ∧ Post.title p = take 100 (first_line s)) ∧
  length (Post.title p) ≤ 100.
Proof.
  intros Hd Hp Ht Hc. destruct (post_of_body m p Hp) as [Hb Httl].
  unfold body in Hb. rewrite Ht, Hc in Hb. exn_simpl. injection Hb as Hb.
  apply derive_title_string in Httl as (s & Hs & Httl). split_and!.
  - by eapply ingest_stores.
  - done.
  - intros Htt. by rewrite Htt in Hb.
  - by exists s.
  - rewrite Httl, length_take. lia.
Qed.

End body_properties.

(** The private message with both fields: the text field is stored. *)
Lemma post_body_text_first_witness :
  ingest (VObj [("message"%string, text_and_caption)]) []
  = Ok (push text_and_caption_post []) ∧
  Post.caption text_and_caption_post = VStr (js "from the text field").
Proof.
  destruct (post_body_text_first (VObj [("message"%string, text_and_caption)])
              [] text_and_caption text_and_caption_post
              (VStr (js "from the text field"))
              (VStr (js "from the caption field")))
    as (Hin & _ & Htext & _).
  - right. reflexivity.
  - reflexivity.
  - reflexivity.
  - reflexivity.
  - split; [exact Hin|]. apply Htext. reflexivity.
Defined.

(** C6, counterexample.  With a text and a caption, the stored body and
    title come from the text field, not from the caption. *)
Lemma caption_does_not_win :
  let b := (webhook None None
              (VObj [("message"%string, text_and_caption)]) []).2 in
  Post.caption <$> head b = Some (VStr (js "from the text field")) ∧
  Post.caption <$> head b ≠ Some (VStr (js "from the caption field")) ∧
  Post.title <$> head b = Some (js "from the text field").
Proof. by vm_compute. Qed.

(** * Part III: further properties of the same code *)

(** ** More on the dedup filter *)

Section dedupe_more.
Context {A L : Type} `{!EqDecision L, !Countable L}.
Variable link : A → L.

(** Starting from a larger set is the same as filtering afterwards. *)
Lemma filter_seen_union (S T : gset L) items :
  filter_seen link (S ∪ T) items
  = filter (λ y, link y ∉ S) (filter_seen link T items).
Proof.
  revert T. induction items as [|i rest IH]; intros T; simpl; [done|].
  destruct (decide (link i ∈ T)) as [HT|HT].
  - rewrite decide_True by set_solver. apply IH.
  - rewrite filter_cons. destruct (decide (link i ∈ S)) as [HS|HS].
    + rewrite decide_True by set_solver. rewrite decide_False by tauto.
      rewrite <- IH. f_equal. set_solver.
    + rewrite decide_False by set_solver. rewrite decide_True by done.
      f_equal. rewrite <- IH. f_equal. set_solver.
Qed.

Lemma filter_seen_app (T : gset L) items1 items2 :
  filter_seen link T (items1 ++ items2)
  = filter_seen link T items1
    ++ filter_seen link (list_to_set (link <$> items1) ∪ T) items2.
Proof.
  revert T. induction items1 as [|i rest IH]; intros T; simpl.
  - f_equal. set_solver.
  - case_decide as Hi.
    + rewrite IH. do 2 f_equal. set_solver.
    + simpl. f_equal. rewrite IH. do 2 f_equal. set_solver.
Qed.

(** No link is lost and none is invented: the output carries exactly the
    links of the input. *)
Theorem dedupeByLink_same_links (items : list A) (v : L) :
  v ∈ link <$> dedupeByLink link items ↔ v ∈ link <$> items.
Proof.
  rewrite <- (elem_of_list_to_set (C := gset L)).
  rewrite <- (elem_of_list_to_set (C := gset L) v (link <$> items)).
  by rewrite dedupe_links_set.
Qed.

(** The filter returns its input unchanged exactly when the links of the
    input are pairwise distinct. *)
Theorem dedupeByLink_fixpoint (items : list A) :
  dedupeByLink link items = items ↔ NoDup (link <$> items).
Proof.
  split.
  - intros <-. apply filter_seen_NoDup.
  - intros Hnd. apply filter_seen_id; [done | set_solver].
Qed.

(** Deduplicating a concatenation: the first part is deduplicated on its
    own, and of the second part only the items whose link the first part
    does not carry are kept. *)
Theorem dedupeByLink_app (items1 items2 : list A) :
  dedupeByLink link (items1 ++ items2)
  = dedupeByLink link items1
    ++ filter (λ y, link y ∉ link <$> items1) (dedupeByLink link items2).
Proof.
  unfold dedupeByLink. rewrite filter_seen_app, filter_seen_union.
  f_equal. apply list_filter_iff. intros y.
  by rewrite elem_of_list_to_set.
Qed.

End dedupe_more.

(** Two items with the same link are not a fixed point; two with distinct
    links are. *)
Lemma dedupeByLink_fixpoint_witness :
  dedupeByLink snd [(1, "a"); (2, "b")]%string = [(1, "a"); (2, "b")]%string.
Proof.
  apply (dedupeByLink_fixpoint snd). vm_compute.
  apply NoDup_cons.
  split; [by intros [=]%list_elem_of_singleton | apply NoDup_singleton].
Defined.

(** ** More on [/api/feed] *)

Section feed_more.
Variable fanout : list string → list FeedItem.



(** In a 200 response no two items share a link, and the items are a
    subsequence of what the fan-out collected over one source list: the
    list of the category, or the India list when the table has none. *)
Theorem feed_items_distinct (query : option string) c items :
  feed fanout query = FeedJson c items →
  NoDup (link <$> items) ∧
  ∃ urls, (sources !! c = Some urls ∨ sources !! c = None ∧ urls = India) ∧
          items `sublist_of` fanout urls.
Proof.
  unfold feed. cbv zeta.
  destruct (table_or _ _) as [|us|] eqn:Hus; [done| |done].
  intros [= <- <-]. split; [apply filter_seen_NoDup|].
  exists us. split; [|apply filter_seen_sublist].
  unfold sources_get in Hus at 1.
  destruct (sources !! default "India"%string query) as [urls|].
  - left. simpl in Hus. congruence.
  - right. split; [done|]. case_decide; [done|]. simpl in Hus.
    rewrite sources_India in Hus. congruence.
Qed.

End feed_more.


(** A fan-out that collected three items, the second under the link of
    the first: the response keeps the first and the third. *)
Lemma feed_items_distinct_witness :
  let story := λ (t l : string),
    {| title := Some (js t); link := Some (js l); summary := js t;
       bullets := []; pubDate := None; source := "h.example"%string;
       image := None |} in
  let a := story "Vaccine drive"%string "https://h.example/1"%string in
  let b := story "Vaccine drive, updated"%string "https://h.example/1"%string in
  let c := story "Heat wave"%string "https://h.example/2"%string in
  let fanout := λ _ : list string, [a; b; c] in
  feed fanout (Some "Health"%string) = FeedJson "Health" [a; c] ∧
  NoDup (link <$> [a; c]) ∧
  ∃ urls,
    (sources !! "Health"%string = Some urls
     ∨ sources !! "Health"%string = None ∧ urls = India) ∧
    [a; c] `sublist_of` fanout urls.
Proof.
  intros story a b c fanout.
  assert (feed fanout (Some "Health"%string) = FeedJson "Health" [a; c])
    as Hfeed by (by vm_compute).
  split; [exact Hfeed|].
  exact (feed_items_distinct fanout (Some "Health"%string) "Health" [a; c]
           Hfeed).
Defined.

(** ** More on [/api/breaking] *)

Section sort_more.
Context {A : Type}.
Variable f : A → Q.
Let cmp : A → A → Q := λ a b, (f b - f a)%Q.

(** The sort is stable: the elements of one score keep their order. *)
Lemma sort_insert_filter q x l :
  filter (λ a, f a == q)%Q (sort_insert cmp x l)
  = filter (λ a, f a == q)%Q (x :: l).
Proof.
  induction l as [|y l IH]; [done|]. cbn [sort_insert].
  destruct (Qlt_le_dec (cmp y x) 0) as [Hlt|Hle]; [|done].
  unfold cmp in Hlt.
  rewrite (filter_cons _ y), IH, !filter_cons.
  repeat case_decide; try done. lra.
Qed.

Lemma sort_filter q l :
  filter (λ a, f a == q)%Q (sort cmp l) = filter (λ a, f a == q)%Q l.
Proof.
  induction l as [|x l IH]; [done|]. cbn [sort foldr].
  rewrite sort_insert_filter, !filter_cons. fold (sort cmp l).
  by rewrite IH.
Qed.

End sort_more.

Section list_more.
Context {A : Type}.

Lemma StronglySorted_take (R : relation A) n l :
  StronglySorted R l → StronglySorted R (take n l).
Proof.
  intros Hl. rewrite <- (take_drop n l) in Hl.
  by apply StronglySorted_app_1_l in Hl.
Qed.

Lemma filter_take_prefix (P : A → Prop) `{!∀ x, Decision (P x)} n l :
  filter P (take n l) `prefix_of` filter P l.
Proof.
  rewrite <- (take_drop n l) at 2. rewrite filter_app.
  by apply prefix_app_r.
Qed.

End list_more.

Section breaking_more.
Variable parseDate : jsstring → option Z.
Variable safeDomain : string → string.

#[local] Abbreviation getTime' := (Breaking.getTime parseDate).
#[local] Abbreviation ageMin' := (Breaking.ageMin parseDate).
#[local] Abbreviation entry_score' := (Breaking.entry_score parseDate).
#[local] Abbreviation breaking' := (Breaking.breaking parseDate safeDomain).
#[local] Abbreviation pushed :=
  (fmap (M := list)
     (λ p : Z * string * Entry.t,
        Breaking.collect parseDate safeDomain p.1.1 p.1.2 p.2)).

(** The response holds the five best scores: five items, or the whole
    collection when it has fewer; in order of non-increasing score; all of
    them collected items; and a collected item that is left out scores no
    higher than any item that is kept. *)
Theorem breaking_top_five (collected : list (Z * string * Entry.t)) :
  length (breaking' collected) = min 5 (length collected) ∧
  StronglySorted (λ a b, Breaking.score b <= Breaking.score a)%Q
    (breaking' collected) ∧
  breaking' collected ⊆+ pushed collected ∧
  ∀ b, b ∈ pushed collected →
       b ∈ breaking' collected
       ∨ ∀ a, a ∈ breaking' collected →
              (Breaking.score b <= Breaking.score a)%Q.
Proof.
  unfold Breaking.breaking. cbv zeta.
  set (items := pushed collected).
  set (sorted := sort _ items).
  pose proof (sort_sorted Breaking.score items) as Hsorted.
  pose proof (sort_perm Breaking.score items) as Hperm.
  fold sorted in Hsorted, Hperm. split_and!.
  - rewrite length_take, Hperm. unfold items. by rewrite length_fmap.
  - by apply StronglySorted_take.
  - rewrite <- Hperm. apply submseteq_take.
  - intros b Hb. rewrite <- Hperm, <- (take_drop 5 sorted) in Hb.
    apply elem_of_app in Hb as [Hb|Hb]; [by left|]. right.
    intros a Ha. rewrite <- (take_drop 5 sorted) in Hsorted.
    by eapply (StronglySorted_app_1_elem_of _ _ _ a b) in Hsorted.
Qed.

Lemma entry_score_range (now : Z) (i : Entry.t) :
  (0 < entry_score' now i)%Q ∧ (entry_score' now i <= 2)%Q.
Proof.
  pose proof (age_floor_pos parseDate now i) as Hpos.
  pose proof (Q.le_max_l 1 (ageMin' now i)) as Hone.
  split.
  - rewrite entry_score_div. apply Qlt_shift_div_l; [done|].
    destruct (boost_cases i) as [-> | ->]; lra.
  - rewrite entry_score_div. apply Qle_shift_div_r; [done|].
    destruct (boost_cases i) as [-> | ->]; lra.
Qed.

(** The score of the object pushed for an entry lies in (0, 2]; an entry
    published less than a minute ago, or dated in the future, scores its
    full boost of 1 or 2; and so every score in the response lies in
    (0, 2]. *)
Theorem breaking_score_range (now : Z) (url : string) (i : Entry.t) :
  let it := Breaking.collect parseDate safeDomain now url i in
  (0 < Breaking.score it)%Q ∧ (Breaking.score it <= 2)%Q ∧
  (∀ t, getTime' (Entry.pubDate i) = Some t → (now - t ≤ 60000)%Z →
        (Breaking.score it == Breaking.boost i)%Q ∧
        (Breaking.score it == 1 ∨ Breaking.score it == 2)%Q) ∧
  (∀ collected a, a ∈ breaking' collected →
        (0 < Breaking.score a)%Q ∧ (Breaking.score a <= 2)%Q).
Proof.
  intros it. unfold it. cbn [Breaking.collect Breaking.score].
  pose proof (age_floor_pos parseDate now i) as Hpos.
  pose proof (Q.le_max_l 1 (ageMin' now i)) as Hone.
  split_and!; [| | |intros collected a Ha;
    destruct (breaking_item_collected parseDate safeDomain collected a Ha)
      as (now' & url' & i' & _ & ->); apply entry_score_range].
  - rewrite entry_score_div. apply Qlt_shift_div_l; [done|].
    destruct (boost_cases i) as [-> | ->]; lra.
  - rewrite entry_score_div. apply Qle_shift_div_r; [done|].
    destruct (boost_cases i) as [-> | ->]; lra.
  - intros t Ht Hfresh.
    assert (entry_score' now i == Breaking.boost i)%Q as Hfull.
    { rewrite entry_score_div.
      assert (ageMin' now i <= 1)%Q as Hage.
      { unfold Breaking.ageMin. rewrite Ht. apply Qle_shift_div_r; [lra|].
        assert (1 * 60000 == inject_Z 60000)%Q as -> by (by vm_compute).
        by rewrite <- Zle_Qle. }
      rewrite (Q.max_l 1 (ageMin' now i) Hage). unfold Qdiv.
      assert (/ 1 == 1)%Q as -> by (by vm_compute). apply Qmult_1_r. }
    split; [done|]. rewrite Hfull.
    destruct (boost_cases i) as [-> | ->]; [by left | by right].
Qed.

(** Of two dated entries with the same boost, the one published later
    scores at least as high. *)
Theorem breaking_score_monotone (now : Z) (i i' : Entry.t) (t t' : Z) :
  Breaking.boost i = Breaking.boost i' →
  getTime' (Entry.pubDate i) = Some t →
  getTime' (Entry.pubDate i') = Some t' →
  (t ≤ t')%Z →
  (entry_score' now i <= entry_score' now i')%Q.
Proof.
  intros Hb Ht Ht' Hle. rewrite !entry_score_div, Hb.
  pose proof (age_floor_pos parseDate now i) as Hpos.
  pose proof (age_floor_pos parseDate now i') as Hpos'.
  assert (Qmax 1 (ageMin' now i') <= Qmax 1 (ageMin' now i))%Q as Hmax.
  { apply Q.max_le_compat_l. unfold Breaking.ageMin. rewrite Ht, Ht'.
    unfold Qdiv. apply Qmult_le_compat_r; [|by vm_compute].
    rewrite <- Zle_Qle. lia. }
  set (m := Qmax 1 (ageMin' now i)) in *.
  set (m' := Qmax 1 (ageMin' now i')) in *.
  set (b := Breaking.boost i').
  assert (0 < b)%Q as Hbpos.
  { unfold b. destruct (boost_cases i') as [-> | ->]; lra. }
  apply Qle_shift_div_r; [done|].
  assert (b == b / m' * m')%Q as Hq by (field; lra).
  assert (0 < b / m')%Q as Hqpos by (apply Qlt_shift_div_l; lra).
  rewrite Hq at 1. by apply Qmult_le_l.
Qed.

(** Entries that score the same appear in the response in the order in
    which they were collected. *)
Theorem breaking_ties_in_order (collected : list (Z * string * Entry.t)) q :
  filter (λ a, Breaking.score a == q)%Q (breaking' collected)
  `prefix_of` filter (λ a, Breaking.score a == q)%Q (pushed collected).
Proof.
  unfold Breaking.breaking. cbv zeta.
  rewrite <- (sort_filter Breaking.score q (pushed collected)).
  apply filter_take_prefix.
Qed.

End breaking_more.

(** Six plain entries of the same minute, and a seventh that is older: the
    seventh is not among the five, and scores no higher than the first. *)
Lemma breaking_top_five_witness :
  let parseDate := λ s : jsstring,
    if decide (s = js "old") then Some 1690000000000%Z
    else Some 1700000000000%Z in
  let e := {| Entry.title := Some (js "Local news"); Entry.link := None;
              Entry.pubDate := Some (js "new") |} in
  let o := {| Entry.title := Some (js "Archive"); Entry.link := None;
              Entry.pubDate := Some (js "old") |} in
  let now := 1700000120000%Z in
  let u := "u"%string in
  let collected :=
    [(now, u, e); (now, u, e); (now, u, o); (now, u, e); (now, u, e);
     (now, u, e); (now, u, e)] in
  (Breaking.score (Breaking.collect parseDate id now u o)
   <= Breaking.score (Breaking.collect parseDate id now u e))%Q.
Proof.
  intros parseDate e o now u collected.
  destruct (breaking_top_five parseDate id collected) as (_ & _ & _ & Hout).
  destruct (Hout (Breaking.collect parseDate id now u o)) as [Hin|Hle].
  - apply elem_of_cons. right. apply elem_of_cons. right.
    apply elem_of_cons. by left.
  - exfalso. vm_compute in Hin.
    repeat (apply elem_of_cons in Hin as [Hin|Hin]; [discriminate Hin|]).
    by apply elem_of_nil in Hin.
  - apply Hle. vm_compute. apply elem_of_cons. by left.
Defined.

(** An entry read thirty seconds after its date: the object pushed for it
    scores its boost, and that score heads the response. *)
Lemma breaking_score_range_witness :
  let parseDate := λ _ : jsstring, Some 1700000000000%Z in
  let e := {| Entry.title := Some (js "Live: match"); Entry.link := None;
              Entry.pubDate := Some (js "Tue") |} in
  let it := Breaking.collect parseDate id 1700000030000 "u"%string e in
  (Breaking.score it == Breaking.boost e)%Q ∧
  (0 < Breaking.score it)%Q ∧ (Breaking.score it <= 2)%Q.
Proof.
  intros parseDate e it.
  destruct (breaking_score_range parseDate id 1700000030000%Z "u"%string e)
    as (_ & _ & Hfull & Hall).
  split.
  - apply (Hfull 1700000000000%Z); [reflexivity | by vm_compute].
  - apply (Hall [(1700000030000%Z, "u"%string, e)]).
    vm_compute. apply elem_of_cons. by left.
Defined.

(** The same headline, dated an hour apart. *)
Lemma breaking_score_monotone_witness :
  let parseDate := λ s : jsstring,
    if decide (s = js "early") then Some 1700000000000%Z
    else Some 1700003600000%Z in
  let early := {| Entry.title := Some (js "Local news"); Entry.link := None;
                  Entry.pubDate := Some (js "early") |} in
  let late := {| Entry.title := Some (js "Local news"); Entry.link := None;
                 Entry.pubDate := Some (js "late") |} in
  (Breaking.entry_score parseDate 1700007200000 early
   <= Breaking.entry_score parseDate 1700007200000 late)%Q.
Proof.
  intros parseDate early late.
  apply (breaking_score_monotone parseDate 1700007200000%Z early late
           1700000000000%Z 1700003600000%Z);
    [reflexivity | reflexivity | reflexivity | by vm_compute].
Defined.

(** ** More on the webhook *)

Section webhook_more.
Implicit Types (m v t c : val) (p : Post.t) (buf : list Post.t).

Lemma push_length p buf :
  length buf ≤ studioMax → length (push p buf) ≤ studioMax.
Proof.
  intros Hlen. rewrite push_take by done. rewrite length_take. lia.
Qed.

(** A delivery stores at most one post, in front, and drops nothing but
    what no longer fits into the fifty places. *)
Theorem webhook_one_push ADMIN_KEY secret req_body buf :
  length buf ≤ 50 →
  ∃ new, length new ≤ 1 ∧
    (webhook ADMIN_KEY secret req_body buf).2 = take 50 (new ++ buf).
Proof.
  intros Hlen.
  destruct (webhook_buffer ADMIN_KEY secret req_body buf) as [-> | [p ->]].
  - exists []. split; [simpl; lia|]. symmetry. by apply take_ge.
  - exists [p]. split; [done|]. by apply push_take.
Qed.

(** The buffer never holds more than fifty posts, whatever is delivered. *)
Theorem serve_bounded ADMIN_KEY (deliveries : list (option string * val)) buf :
  length buf ≤ 50 → length (serve ADMIN_KEY deliveries buf) ≤ 50.
Proof.
  unfold serve. revert buf.
  induction deliveries as [|d ds IH]; intros buf Hlen; [done|].
  simpl. apply IH.
  destruct (webhook_buffer ADMIN_KEY d.1 d.2 buf) as [-> | [p ->]]; [done|].
  by apply push_length.
Qed.

Lemma first_line_prefix (s : jsstring) : first_line s `prefix_of` s.
Proof.
  induction s as [|c s IH]; simpl; [done|].
  case_decide; [apply prefix_nil | by apply prefix_cons].
Qed.

Lemma first_line_no_feed (s : jsstring) : 10%N ∉ first_line s.
Proof.
  induction s as [|c s IH]; simpl; [apply not_elem_of_nil|].
  case_decide; [apply not_elem_of_nil|].
  rewrite elem_of_cons. naive_solver.
Qed.

Lemma first_line_whole (s : jsstring) : 10%N ∉ s → first_line s = s.
Proof.
  induction s as [|c s IH]; simpl; [done|].
  rewrite elem_of_cons. intros Hs.
  rewrite decide_False by naive_solver. f_equal. apply IH. naive_solver.
Qed.

(** The stored title is a prefix of the stored body, is at most 100 code
    units long, holds no line feed, and is the whole body when that is one
    line of at most 100 units. *)
Theorem post_title_prefix m p :
  post_of m = Ok p →
  ∃ s, Post.caption p = VStr s ∧
       length (Post.title p) ≤ 100 ∧
       (Post.title p `prefix_of` s) ∧
       (10%N ∉ Post.title p) ∧
       (10%N ∉ s → length s ≤ 100 → Post.title p = s) ∧
       (100 ≤ length (first_line s) → length (Post.title p) = 100).
Proof.
  intros Hp. destruct (post_of_body m p Hp) as [_ Httl].
  apply derive_title_string in Httl as (s & Hs & ->).
  exists s. split_and!; [| | | | |rewrite length_take; lia].
  - done.
  - rewrite length_take. lia.
  - etrans; [apply prefix_take | apply first_line_prefix].
  - intros Hin. apply (first_line_no_feed s).
    eapply elem_of_prefix; [exact Hin | apply prefix_take].
  - intros Hfeed Hlen. rewrite first_line_whole by done. by apply take_ge.
Qed.

(** A recognized delivery whose text field is truthy but not a string
    cannot be given a title: it is answered 200 and nothing is stored. *)
Theorem webhook_drops_odd_text ADMIN_KEY secret req_body buf m t :
  configured ADMIN_KEY = false ∨ secret = ADMIN_KEY →
  classify (update_of req_body) = Ok (Broadcast m)
  ∨ classify (update_of req_body) = Ok (Direct m) →
  get m "text" = Ok t → truthy t = true → (∀ s, t ≠ VStr s) →
  webhook ADMIN_KEY secret req_body buf = (200, buf).
Proof.
  intros Hauth Hd Ht Htt Hstr.
  assert (post_of m = Throw) as Hp.
  { unfold post_of. destruct (media m) as [[ty fid]|]; exn_simpl; [|done].
    unfold body. rewrite Ht. exn_simpl.
    destruct (get m "caption") as [c|]; exn_simpl; [|done].
    rewrite Htt.
    destruct (get m "message_id"); exn_simpl; [|done].
    destruct t; try done. by destruct (Hstr s). }
  assert (ingest req_body buf = Throw) as Hin.
  { unfold ingest. destruct Hd as [-> | ->]; exn_simpl; by rewrite Hp. }
  unfold webhook. rewrite Hin.
  destruct Hauth as [-> | ->]; [done|].
  rewrite bool_decide_eq_true_2 by done. by rewrite andb_false_r.
Qed.

Lemma media_text_null m f : media m = Ok (text, f) → f = VNull.
Proof.
  unfold media. destruct (get m "photo") as [ph|]; exn_simpl; [|done].
  destruct (get_opt ph "length") as [len|]; exn_simpl; [|done].
  destruct (truthy len); exn_simpl.
  - destruct (slice_last ph) as [l|]; exn_simpl; [|done].
    destruct (get (index0 l) "file_id"); exn_simpl; [|done].
    destruct (get m "video") as [v|]; exn_simpl; [|done].
    destruct (truthy v); [|done].
    by destruct (get v "file_id").
  - destruct (get m "video") as [v|]; exn_simpl; [|done].
    destruct (truthy v); [|by intros [= <-]].
    by destruct (get v "file_id").
Qed.

End webhook_more.

(** One delivery into a full buffer: the new post in front, the oldest
    post gone. *)
Lemma webhook_one_push_witness :
  ∃ new, length new ≤ 1 ∧
    (webhook None None (VObj [("channel_post"%string, flood_alert)])
       (replicate 50 text_and_caption_post)).2
    = take 50 (new ++ replicate 50 text_and_caption_post).
Proof.
  apply (webhook_one_push None None
           (VObj [("channel_post"%string, flood_alert)])
           (replicate 50 text_and_caption_post)).
  rewrite length_replicate. lia.
Defined.

Lemma serve_bounded_witness :
  length (serve None
            (replicate 60 (None, VObj [("channel_post"%string, flood_alert)]))
            []) ≤ 50.
Proof.
  apply (serve_bounded None
           (replicate 60 (None, VObj [("channel_post"%string, flood_alert)]))
           []).
  simpl. lia.
Defined.

Lemma post_title_prefix_witness :
  ∃ s, Post.caption flood_alert_post = VStr s ∧
       length (Post.title flood_alert_post) ≤ 100 ∧
       (Post.title flood_alert_post `prefix_of` s) ∧
       (10%N ∉ Post.title flood_alert_post) ∧
       (10%N ∉ s → length s ≤ 100 → Post.title flood_alert_post = s) ∧
       (100 ≤ length (first_line s) →
        length (Post.title flood_alert_post) = 100).
Proof.
  apply (post_title_prefix flood_alert flood_alert_post). reflexivity.
Defined.

(** A private message whose text is the number 5. *)
Lemma webhook_drops_odd_text_witness :
  webhook None None
    (VObj [("message"%string,
            VObj [private_chat; ("text"%string, VNum 5)])]) []
  = (200, []).
Proof.
  apply (webhook_drops_odd_text None None _ []
           (VObj [private_chat; ("text"%string, VNum 5)]) (VNum 5)).
  - by left.
  - right. reflexivity.
  - reflexivity.
  - reflexivity.
  - intros s. discriminate.
Defined.


(** ** [/api/azad-studio] *)

Section azad_studio_properties.
Variable ToString : val → exn jsstring.
Hypothesis ToString_string : ∀ s, ToString (VStr s) = Ok s.

Lemma studio_item_plain p :
  plain_reference p →
  studio_item ToString p
  = Ok {| Studio.post := p;
          Studio.mediaUrl :=
            match Post.file_id p with
            | VStr (c :: s) => Some (js "/tg/file/" ++ c :: s)
            | _ => None
            end;
          Studio.source := js "Azad Studio" |}.
Proof.
  unfold studio_item, media_url. intros [Hf | [s Hs]].
  - rewrite Hf. exn_simpl. by destruct (Post.file_id p) as [| | | | [|??] | |].
  - rewrite Hs. destruct s as [|c s]; [done|]. simpl truthy. cbv iota.
    rewrite ToString_string. done.
Qed.

(** The listing shows the buffer as it is, latest first: one item per
    post, the post unchanged, the source "Azad Studio", and the media URL
    "/tg/file/" followed by the reference, or null for a post without. *)
Theorem azad_studio_lists_buffer (buf : list Post.t) :
  Forall plain_reference buf →
  ∃ items, azad_studio ToString buf = Ok items ∧
    Studio.post <$> items = buf ∧
    Forall (λ i, Studio.source i = js "Azad Studio" ∧
                 Studio.mediaUrl i
                 = match Post.file_id (Studio.post i) with
                   | VStr (c :: s) => Some (js "/tg/file/" ++ c :: s)
                   | _ => None
                   end) items.
Proof.
  induction 1 as [|p buf Hp _ (items & Hitems & Hposts & Hall)].
  - by exists [].
  - eexists (_ :: items). cbn [azad_studio].
    rewrite (studio_item_plain p Hp), Hitems.
    split_and!; [done | by rewrite fmap_cons, Hposts |].
    constructor; [done | exact Hall].
Qed.

End azad_studio_properties.

(** A post of kind text that the webhook has built is listed without a
    media URL, whatever the conversion to strings does. *)
Theorem studio_text_post_no_media (ToString : val → exn jsstring) m p :
  post_of m = Ok p → Post.type p = text →
  studio_item ToString p
  = Ok {| Studio.post := p; Studio.mediaUrl := None;
          Studio.source := js "Azad Studio" |}.
Proof.
  intros Hp Hty. pose proof (post_of_media m p Hp) as Hm.
  rewrite Hty in Hm. apply media_text_null in Hm.
  unfold studio_item, media_url. by rewrite Hm.
Qed.

(** The photo post and the text post, listed. *)
Lemma azad_studio_lists_buffer_witness :
  ∃ items,
    azad_studio (λ v, match v with VStr s => Ok s | _ => Throw end)
      [flood_alert_post; text_and_caption_post] = Ok items ∧
    Studio.post <$> items = [flood_alert_post; text_and_caption_post] ∧
    Forall (λ i, Studio.source i = js "Azad Studio" ∧
                 Studio.mediaUrl i
                 = match Post.file_id (Studio.post i) with
                   | VStr (c :: s) => Some (js "/tg/file/" ++ c :: s)
                   | _ => None
                   end) items.
Proof.
  apply (azad_studio_lists_buffer
           (λ v, match v with VStr s => Ok s | _ => Throw end)).
  - done.
  - constructor; [right; by eexists | constructor; [by left | constructor]].
Defined.

Lemma studio_text_post_no_media_witness :
  studio_item (λ _, Throw) text_and_caption_post
  = Ok {| Studio.post := text_and_caption_post; Studio.mediaUrl := None;
          Studio.source := js "Azad Studio" |}.
Proof.
  apply (studio_text_post_no_media (λ _, Throw) text_and_caption);
    reflexivity.
Defined.

(** ** [/api/notify/breaking] and the two secret checks *)

(** The two checks as the handlers make them, behind the parser. *)
Lemma secret_checks_handler ADMIN_KEY (credential : option string) req_body buf :
  (configured ADMIN_KEY = true →
     (notify ADMIN_KEY credential = 200 ↔ credential = ADMIN_KEY) ∧
     ((webhook ADMIN_KEY credential req_body buf).1 = 200
      ↔ credential = ADMIN_KEY)) ∧
  (configured ADMIN_KEY = false →
     (notify ADMIN_KEY credential = 200 ↔ or_empty credential = ""%string) ∧
     (webhook ADMIN_KEY credential req_body buf).1 = 200) ∧
  (notify ADMIN_KEY credential = 200 ∨ notify ADMIN_KEY credential = 401).
Proof.
  split_and!.
  - intros Hkey. destruct ADMIN_KEY as [k|]; [|done].
    simpl in Hkey. apply negb_true_iff, String.eqb_neq in Hkey.
    split.
    + unfold notify, or_empty. simpl. case_bool_decide as Hne.
      * split; [done|]. intros ->. done.
      * split; [|done]. intros _.
        destruct credential as [c|]; simpl in Hne; congruence.
    + unfold webhook. simpl.
      destruct (decide (credential = Some k)) as [->|Hne].
      * rewrite bool_decide_eq_true_2 by done.
        assert (negb (k =? "")%string = true) as ->
          by by apply negb_true_iff, String.eqb_neq.
        simpl. by destruct (ingest _ _).
      * rewrite bool_decide_eq_false_2 by done.
        assert (negb (k =? "")%string = true) as ->
          by by apply negb_true_iff, String.eqb_neq.
        simpl. split; [done|]. intros ->. done.
  - intros Hkey. split.
    + assert (or_empty ADMIN_KEY = ""%string) as Hk.
      { destruct ADMIN_KEY as [k|]; [|done]. simpl in Hkey.
        apply negb_false_iff, String.eqb_eq in Hkey. by subst. }
      unfold notify. rewrite Hk. case_bool_decide as Hne.
      * split; [done|]. intros. done.
      * split; [|done]. by intros _.
    + unfold webhook. rewrite Hkey. simpl. by destruct (ingest _ _).
  - unfold notify. case_bool_decide; auto.
Qed.

(** For a request whose body the JSON body parser accepts: with a key
    configured, the admin route and the webhook let the same credentials
    through, the configured key and nothing else; without a key the
    webhook lets every delivery through, and the admin route exactly the
    requests whose header is absent or empty; and the admin route answers
    200 or 401.  A request whose body the parser rejects is answered 500
    on both routes, whatever its credential. *)
Theorem secret_checks ADMIN_KEY (credential : option string)
    (sent : payload) buf :
  (∀ req_body, express_json sent = Ok req_body →
     (configured ADMIN_KEY = true →
        (notify_route ADMIN_KEY credential sent = 200
         ↔ credential = ADMIN_KEY) ∧
        ((webhook_route ADMIN_KEY credential sent buf).1 = 200
         ↔ credential = ADMIN_KEY)) ∧
     (configured ADMIN_KEY = false →
        (notify_route ADMIN_KEY credential sent = 200
         ↔ or_empty credential = ""%string) ∧
        (webhook_route ADMIN_KEY credential sent buf).1 = 200) ∧
     (notify_route ADMIN_KEY credential sent = 200
      ∨ notify_route ADMIN_KEY credential sent = 401)) ∧
  (express_json sent = Throw →
     notify_route ADMIN_KEY credential sent = 500 ∧
     webhook_route ADMIN_KEY credential sent buf = (500, buf)).
Proof.
  unfold notify_route, webhook_route. split.
  - intros req_body ->. apply secret_checks_handler.
  - by intros ->.
Qed.

(** The configured key on an empty JSON object; no key and no header on a
    request without a body; and the configured key on a JSON text that
    does not parse. *)
Lemma secret_checks_witness :
  notify_route (Some "s3cret"%string) (Some "s3cret"%string) (Json (VObj []))
  = 200 ∧
  notify_route None None NoJson = 200 ∧
  notify_route (Some "s3cret"%string) (Some "s3cret"%string) Malformed = 500.
Proof.
  destruct (secret_checks (Some "s3cret"%string) (Some "s3cret"%string)
              (Json (VObj [])) []) as (Hin & _).
  destruct (Hin (VObj []) eq_refl) as (Hset & _ & _).
  destruct (secret_checks None None NoJson []) as (Hin' & _).
  destruct (Hin' (VObj []) eq_refl) as (_ & Hunset & _).
  destruct (secret_checks (Some "s3cret"%string) (Some "s3cret"%string)
              Malformed []) as (_ & Hout).
  split_and!.
  - apply Hset; reflexivity.
  - apply Hunset; reflexivity.
  - apply Hout. reflexivity.
Defined.

(** ** [/api/translate] *)

Section translate_properties.
Variable translateText : val → val → exn jsstring.

(** The test of the handler, behind the parser: without a truthy text and
    a truthy target the answer is 400 for every model, also for one that
    throws. *)
Lemma translate_handler_requires_fields req_body text target :
  get (update_of req_body) "text" = Ok text →
  get (update_of req_body) "target" = Ok target →
  (translate translateText req_body = Ok TranslateBad
   ↔ truthy text = false ∨ truthy target = false).
Proof.
  intros Htext Htarget. unfold translate. cbv zeta.
  rewrite Htext, Htarget. exn_simpl.
  destruct (truthy text), (truthy target); simpl; try naive_solver.
  destruct (translateText _ _); simpl; naive_solver.
Qed.

(** A request whose body the JSON body parser accepts is answered 400
    exactly when its text or its target is missing or falsy, and then the
    language model is not consulted: the answer is the same for every
    model, also for one that throws.  A request whose body the parser
    rejects does not reach the handler and is answered 500. *)
Theorem translate_requires_fields (sent : payload) :
  (∀ req_body text target,
     express_json sent = Ok req_body →
     get req_body "text" = Ok text → get req_body "target" = Ok target →
     (translate_route translateText sent = Handled (Ok TranslateBad)
      ↔ truthy text = false ∨ truthy target = false)) ∧
  (∀ req_body, express_json sent = Ok req_body →
     ∃ text target,
       get req_body "text" = Ok text ∧ get req_body "target" = Ok target) ∧
  (express_json sent = Throw →
     translate_route translateText sent = ServerError).
Proof.
  unfold translate_route. split_and!.
  - intros req_body text target Hin Htext Htarget.
    destruct (express_json_accepts sent req_body Hin) as [Hbody _].
    rewrite Hin.
    rewrite <- (translate_handler_requires_fields req_body text target)
      by (by rewrite Hbody).
    split; [by intros [= ->] | by intros ->].
  - intros req_body Hin.
    destruct (express_json_accepts sent req_body Hin)
      as [_ [[_ ->] | ->]]; [by eexists _, _|].
    destruct req_body; try done; simpl; repeat case_decide; by eexists _, _.
  - by intros ->.
Qed.

End translate_properties.

(** A JSON object with a text and no target, under a model that throws:
    400.  The JSON text [5]: 500. *)
Lemma translate_requires_fields_witness :
  translate_route (λ _ _, Throw)
    (Json (VObj [("text"%string, VStr (js "Hello"))]))
  = Handled (Ok TranslateBad) ∧
  translate_route (λ _ _, Throw) (Json (VNum 5)) = ServerError.
Proof.
  destruct (translate_requires_fields (λ _ _, Throw)
              (Json (VObj [("text"%string, VStr (js "Hello"))])))
    as (Hbad & _ & _).
  destruct (translate_requires_fields (λ _ _, Throw) (Json (VNum 5)))
    as (_ & _ & Hout).
  split; [|by apply Hout].
  apply (Hbad (VObj [("text"%string, VStr (js "Hello"))])
           (VStr (js "Hello")) VUndefined).
  - reflexivity.
  - reflexivity.
  - reflexivity.
  - by right.
Defined.

(** ** More on [toRomanHindi] *)

Section translit_more.
Implicit Types (re : regex) (rep s str : jsstring) (c x : N).

Lemma rule_units_match re c s :
  c ∈ rule_units re → match_here false re (c :: s) = Some 1.
Proof.
  unfold rule_units. intros Hc.
  repeat case_match; try by apply elem_of_nil in Hc.
  - apply list_elem_of_singleton in Hc as ->. subst.
    unfold match_here. cbn [rmatch]. unfold same_unit.
    rewrite bool_decide_eq_true_2 by done. f_equal. simpl. lia.
  - subst. unfold match_here. cbn [rmatch].
    apply elem_of_cons in Hc as [-> | ->%list_elem_of_singleton].
    + unfold same_unit. rewrite bool_decide_eq_true_2 by done.
      f_equal. simpl. lia.
    + unfold same_unit. rewrite (bool_decide_eq_true_2 (_ = _) eq_refl).
      case_bool_decide; f_equal; simpl; lia.
Qed.

(** A rule that matches [c] on its own leaves no [c] behind. *)
Lemma replace_from_covered re rep c skip s :
  c ∈ rule_units re → c ∉ rep → c ∉ replace_from re rep skip s.
Proof.
  intros Hre Hrep. revert skip. induction s as [|x s IH]; intros skip.
  - simpl. apply not_elem_of_nil.
  - destruct skip as [|n]; [|apply IH]. cbn [replace_from].
    destruct (match_here false re (x :: s)) as [[|m]|] eqn:Hm.
    + rewrite elem_of_cons. intros [->|?]; [|by eapply IH].
      by rewrite rule_units_match in Hm.
    + rewrite elem_of_app. intros [?|?]; [done | by eapply IH].
    + rewrite elem_of_cons. intros [->|?]; [|by eapply IH].
      by rewrite rule_units_match in Hm.
Qed.

Lemma clears_sound c rules s :
  clears c rules = true → c ∉ RomanHindi.apply_map rules s.
Proof.
  revert s. induction rules as [|rule rest IH]; intros s; [done|].
  cbn [clears]. intros [Hhere | Hlater]%orb_true_iff.
  - apply andb_true_iff in Hhere as [[Hu Hr]%andb_true_iff Hrest].
    apply bool_decide_eq_true in Hu, Hr.
    unfold RomanHindi.apply_map. simpl. apply apply_map_absent.
    + apply Forall_forall. intros r Hin.
      rewrite forallb_forall in Hrest.
      apply list_elem_of_In, Hrest in Hin. by apply bool_decide_eq_true in Hin.
    + by apply replace_from_covered.
  - unfold RomanHindi.apply_map. simpl. by apply IH.
Qed.

Lemma roman_letters_cleared :
  Forall (λ c, clears c RomanHindi.map = true) roman_letters.
Proof. apply (bool_decide_unpack _). by vm_compute. Qed.

(** The two replacements of the [return] statement never change the
    result: the function is the table alone. *)
Theorem toRomanHindi_is_table (str : jsstring) :
  toRomanHindi str = RomanHindi.apply_map RomanHindi.map str.
Proof. apply toRomanHindi_table_only. Qed.

(** No letter that has a rule of its own is left in the output. *)
Theorem toRomanHindi_no_letters (str : jsstring) (c : N) :
  c ∈ roman_letters → c ∉ toRomanHindi str.
Proof.
  intros Hc. rewrite toRomanHindi_table_only. apply clears_sound.
  pose proof roman_letters_cleared as Hall.
  rewrite Forall_forall in Hall. by apply Hall.
Qed.

(** A match that is not empty starts with one of the first units of its
    pattern. *)
Lemma rmatch_first {R : Type} re s (k : jsstring → option R) v :
  rmatch false re s k = Some v →
  (∃ x s', s = x :: s' ∧ x ∈ first_units re)
  ∨ (nullable re = true ∧ k s = Some v).
Proof.
  revert s k. induction re as [|p|r1 IH1 r2 IH2|r1 IH1 r2 IH2|r IH];
    intros s k; cbn [rmatch nullable first_units].
  - intros Hk. by right.
  - destruct s as [|c s]; [done|]. unfold same_unit.
    case_bool_decide as Hp; [|done]. subst c. intros _. left.
    exists p, s. split; [done|]. by apply list_elem_of_singleton.
  - intros [(x & s' & -> & Hx) | [Hn Hk]]%IH1.
    + left. exists x, s'. split; [done|]. apply elem_of_app. by left.
    + apply IH2 in Hk as [(x & s' & -> & Hx) | [Hn2 Hk]].
      * left. exists x, s'. split; [done|]. rewrite Hn.
        apply elem_of_app. by right.
      * right. by rewrite Hn, Hn2.
  - destruct (rmatch false r1 s k) as [v1|] eqn:H1.
    + intros [= <-]. apply IH1 in H1 as [(x & s' & -> & Hx) | [Hn Hk]].
      * left. exists x, s'. split; [done|]. apply elem_of_app. by left.
      * right. by rewrite Hn.
    + intros [(x & s' & -> & Hx) | [Hn Hk]]%IH2.
      * left. exists x, s'. split; [done|]. apply elem_of_app. by right.
      * right. by rewrite Hn, orb_true_r.
  - destruct (rmatch false r s k) as [v1|] eqn:H1.
    + intros [= <-]. apply IH in H1 as [(x & s' & -> & Hx) | [Hn Hk]].
      * left. by exists x, s'.
      * by right.
    + intros Hk. by right.
Qed.

Lemma match_here_first re x s n :
  match_here false re (x :: s) = Some (S n) → x ∈ first_units re.
Proof.
  unfold match_here.
  intros [(x' & s' & [= <- <-] & Hx) | [_ Hk]]%rmatch_first; [done|].
  injection Hk as Hk. lia.
Qed.

(** A pattern none of whose first units occurs in the text changes
    nothing. *)
Lemma replace_no_first re rep s :
  (∀ x, x ∈ s → x ∉ first_units re) → replace re rep s = s.
Proof.
  unfold replace. induction s as [|x s IH]; intros Hs; [done|].
  cbn [replace_from].
  destruct (match_here false re (x :: s)) as [[|n]|] eqn:Hm.
  - f_equal. apply IH. intros y Hy. apply Hs. by right.
  - apply match_here_first in Hm. destruct (Hs x); [by left | done].
  - f_equal. apply IH. intros y Hy. apply Hs. by right.
Qed.

Lemma apply_map_no_first rules s :
  Forall (λ rule, ∀ x, x ∈ s → x ∉ first_units rule.1) rules →
  RomanHindi.apply_map rules s = s.
Proof.
  unfold RomanHindi.apply_map. induction 1 as [|rule rest Hrule _ IH];
    [done|].
  simpl. by rewrite replace_no_first.
Qed.

Lemma table_first_units :
  Forall (λ rule, first_units rule.1 ⊆ roman_letters) RomanHindi.map.
Proof. apply (bool_decide_unpack _). by vm_compute. Qed.

(** A text that holds none of the letters of the table comes back
    unchanged. *)
Theorem toRomanHindi_other_text (str : jsstring) :
  (∀ x, x ∈ str → x ∉ roman_letters) → toRomanHindi str = str.
Proof.
  intros Hstr. rewrite toRomanHindi_table_only.
  apply apply_map_no_first.
  eapply Forall_impl; [apply table_first_units|].
  intros rule Hsub x Hx Hfirst. apply (Hstr x Hx). by apply Hsub.
Qed.

End translit_more.

(** "OK 200" holds no letter of the table. *)
Lemma toRomanHindi_other_text_witness :
  toRomanHindi (js "OK 200") = js "OK 200".
Proof.
  apply toRomanHindi_other_text. intros x Hx Hletter.
  assert (Forall (λ x, x ∉ roman_letters) (js "OK 200")) as Hall.
  { apply (bool_decide_unpack _). by vm_compute. }
  rewrite Forall_forall in Hall. by apply (Hall x).
Defined.

(** The letter ka has a rule of its own. *)
Lemma toRomanHindi_no_letters_witness :
  (0x0915)%N ∉ toRomanHindi [0x0915; 0x0915; 0x0041]%N.
Proof.
  apply toRomanHindi_no_letters.
  apply (bool_decide_unpack _). by vm_compute.
Defined.

(** ** The length of a romanization *)

Section translit_length.
Implicit Types (re : regex) (rep s str : jsstring) (c x : N).

(** A letter of the table counts three, any other code unit one. *)
#[local] Abbreviation weight :=
  (sum_list_with (λ c : N, if decide (c ∈ roman_letters) then 3 else 1)).

Lemma weight_length s : length s ≤ weight s ∧ weight s ≤ 3 * length s.
Proof.
  induction s as [|c s [IH1 IH2]]; simpl; [lia|]. case_decide; lia.
Qed.

Lemma weight_plain rep :
  (∀ c, c ∈ rep → c ∉ roman_letters) → weight rep = length rep.
Proof.
  induction rep as [|c rep IH]; intros Hrep; simpl; [done|].
  rewrite decide_False by (apply Hrep; by left).
  rewrite IH; [done|]. intros x Hx. apply Hrep. by right.
Qed.

(** A rule that starts at letters and writes at most three plain code
    units does not add weight. *)
Lemma replace_from_weight re rep skip s :
  first_units re ⊆ roman_letters → weight rep ≤ 3 →
  weight (replace_from re rep skip s) ≤ weight s.
Proof.
  intros Hre Hrep. revert skip. induction s as [|x s IH]; intros skip;
    [done|].
  destruct skip as [|n].
  - cbn [replace_from].
    destruct (match_here false re (x :: s)) as [[|m]|] eqn:Hm.
    + simpl. specialize (IH 0). lia.
    + apply match_here_first, Hre in Hm.
      rewrite sum_list_with_app. simpl. rewrite decide_True by done.
      specialize (IH m). lia.
    + simpl. specialize (IH 0). lia.
  - simpl. specialize (IH n). case_decide; lia.
Qed.

Lemma apply_map_weight rules s :
  Forall (λ rule, first_units rule.1 ⊆ roman_letters ∧ weight rule.2 ≤ 3)
    rules →
  weight (RomanHindi.apply_map rules s) ≤ weight s.
Proof.
  unfold RomanHindi.apply_map. intros Hrules. revert s.
  induction Hrules as [|rule rest [Hfirst Hrep] _ IH]; intros s; [done|].
  simpl. etrans; [apply IH|]. by apply replace_from_weight.
Qed.

Lemma table_weight :
  Forall (λ rule, first_units rule.1 ⊆ roman_letters ∧ weight rule.2 ≤ 3)
    RomanHindi.map.
Proof. apply (bool_decide_unpack _). by vm_compute. Qed.

(** The romanization is at most three times as long as its input. *)
Theorem toRomanHindi_length (str : jsstring) :
  length (toRomanHindi str) ≤ 3 * length str.
Proof.
  rewrite toRomanHindi_table_only.
  pose proof (apply_map_weight RomanHindi.map str table_weight).
  pose proof (weight_length (RomanHindi.apply_map RomanHindi.map str)).
  pose proof (weight_length str). lia.
Qed.

End translit_length.

(** ** [/api/translate] with the target "romhi" *)

Section translate_romhi.
Variable translateText : val → val → exn jsstring.

(** For the target "romhi" the language model is asked for "hi", and the
    text of the response is the romanization of its answer: it holds no
    letter of the table. *)
Theorem translate_romhi req_body text out :
  get (update_of req_body) "text" = Ok text → truthy text = true →
  get (update_of req_body) "target" = Ok (VStr (js "romhi")) →
  translateText text (VStr (js "hi")) = Ok out →
  translate translateText req_body = Ok (TranslateText (toRomanHindi out)) ∧
  ∀ c, c ∈ roman_letters → c ∉ toRomanHindi out.
Proof.
  intros Htext Htruthy Htarget Hout. split.
  - unfold translate. cbv zeta. rewrite Htext, Htarget. exn_simpl.
    rewrite Htruthy. simpl. rewrite Hout. done.
  - intros c. apply toRomanHindi_no_letters.
Qed.

End translate_romhi.

(** A model that answers the word hai. *)
Lemma translate_romhi_witness :
  translate (λ _ _, Ok RomanHindi.hai)
    (VObj [("text"%string, VStr (js "is"));
           ("target"%string, VStr (js "romhi"))])
  = Ok (TranslateText (toRomanHindi RomanHindi.hai)).
Proof.
  apply (translate_romhi (λ _ _, Ok RomanHindi.hai) _ (VStr (js "is")));
    reflexivity.
Defined.


(** ** [stripHtml]: spacing and length *)

Section strip_spacing.
Implicit Types (s rep : jsstring) (c : N) (prev : option N) (b : bool).

Lemma space_is_space : 32%N ∈ Rx.space.
Proof. apply (bool_decide_unpack _). by vm_compute. Qed.

Lemma leading_le s : leading s ≤ length s.
Proof. induction s as [|c s IH]; simpl; [done|]. case_bool_decide; lia. Qed.

Lemma leading_all s : Forall (λ c, c ∈ Rx.space) (take (leading s) s).
Proof.
  induction s as [|c s IH]; simpl; [constructor|].
  case_bool_decide; simpl; by constructor.
Qed.

(** Before a continuation that never fails, the greedy star takes the
    whole run. *)
Lemma star_greedy_spaces {R : Type} (f : jsstring → R) prev s :
  Rx.star_greedy (Rx.Only Rx.space) (λ _ s', Some (f s')) prev s
  = Some (f (drop (leading s) s)).
Proof.
  revert prev. induction s as [|c s IH]; intros prev; simpl; [done|].
  case_bool_decide; [|done]. by rewrite IH.
Qed.

Lemma spaces_here prev c s :
  Rx.match_here Rx.spaces prev (c :: s)
  = if bool_decide (c ∈ Rx.space) then Some (S (leading s)) else None.
Proof.
  unfold Rx.match_here, Rx.spaces. cbn [Rx.rmatch Rx.member].
  case_bool_decide; [|done].
  rewrite star_greedy_spaces. f_equal. rewrite length_drop. simpl.
  pose proof (leading_le s). lia.
Qed.

(** What [replace(/\s+/g, " ")] returns is single-spaced. *)
Lemma collapse_single_spaced skip prev s b :
  b = false ∧ skip = 0 ∨ b = true ∧ leading s = skip →
  single_spaced b (Rx.replace_from Rx.spaces (js " ") skip prev s) = true.
Proof.
  revert skip prev b. induction s as [|c s IH]; intros skip prev b Hinv;
    [done|].
  destruct skip as [|n].
  - cbn [Rx.replace_from]. rewrite spaces_here.
    case_bool_decide as Hc.
    + assert (b = false) as ->.
      { destruct Hinv as [[-> _] | [_ Hl]]; [done|].
        simpl in Hl. by rewrite bool_decide_eq_true_2 in Hl. }
      change (js " " ++ ?x) with (32%N :: x). cbn [single_spaced].
      rewrite bool_decide_eq_true_2 by apply space_is_space.
      rewrite bool_decide_eq_true_2 by done. simpl.
      apply IH. by right.
    + cbn [single_spaced]. rewrite bool_decide_eq_false_2 by done.
      apply IH. by left.
  - cbn [Rx.replace_from]. destruct Hinv as [[_ [=]] | [-> Hl]].
    simpl in Hl. case_bool_decide; [|done].
    apply IH. right. split; [done|]. lia.
Qed.

Lemma single_spaced_weaken b s :
  single_spaced b s = true → single_spaced false s = true.
Proof.
  destruct s as [|c s]; [done|]. simpl. case_bool_decide; [|done].
  destruct b; [done|]. done.
Qed.

Lemma single_spaced_units b s c :
  single_spaced b s = true → c ∈ s → c ∈ Rx.space → c = 32%N.
Proof.
  revert b. induction s as [|x s IH]; intros b; [by intros _ ?%elem_of_nil|].
  simpl. case_bool_decide as Hx.
  - intros [[_ Hx32%bool_decide_eq_true]%andb_true_iff Hs]%andb_true_iff.
    intros [->|Hin]%elem_of_cons Hc; [done | by eapply IH].
  - intros Hs [->|Hin]%elem_of_cons Hc; [done | by eapply IH].
Qed.

Lemma single_spaced_head s c :
  single_spaced true s = true → head s = Some c → c ∉ Rx.space.
Proof.
  destruct s as [|x s]; [done|]. simpl. intros Hs [= ->] Hc.
  by rewrite bool_decide_eq_true_2 in Hs.
Qed.

Lemma single_spaced_pairs b s l r :
  single_spaced b s = true → s ≠ l ++ [32%N; 32%N] ++ r.
Proof.
  revert b s. induction l as [|x l IH]; intros b s Hs ->.
  - cbn [app single_spaced] in Hs.
    rewrite !(bool_decide_eq_true_2 _ space_is_space) in Hs.
    simpl in Hs. by rewrite andb_false_r in Hs.
  - simpl in Hs. case_bool_decide.
    + apply andb_true_iff in Hs as [_ Hs]. by eapply IH.
    + by eapply IH.
Qed.

Lemma trim_start_split s :
  ∃ l, s = l ++ trim_start s ∧ Forall (λ c, c ∈ Rx.space) l.
Proof.
  induction s as [|c s (l & Hs & Hl)]; [by exists []|].
  simpl. case_bool_decide.
  - exists (c :: l). split; [by rewrite Hs at 1 | by constructor].
  - by exists [].
Qed.

Lemma trim_start_head s c :
  head (trim_start s) = Some c → c ∉ Rx.space.
Proof.
  induction s as [|x s IH]; [done|]. simpl.
  case_bool_decide; [done|]. by intros [= <-].
Qed.

Lemma trim_start_id s :
  (∀ c, head s = Some c → c ∉ Rx.space) → trim_start s = s.
Proof.
  destruct s as [|x s]; [done|]. simpl. intros Hs.
  rewrite bool_decide_eq_false_2; [done|]. by apply Hs.
Qed.

(** [trim] cuts white space off both ends and nothing else. *)
Lemma trim_split s :
  ∃ l r, s = l ++ trim s ++ r ∧
    (∀ c, head (trim s) = Some c → c ∉ Rx.space) ∧
    (∀ c, last (trim s) = Some c → c ∉ Rx.space).
Proof.
  destruct (trim_start_split s) as (l & Hs & _).
  destruct (trim_start_split (reverse (trim_start s))) as (l2 & Hr & _).
  assert (trim_start s = trim s ++ reverse l2) as Ht.
  { unfold trim. rewrite <- reverse_app, <- Hr. by rewrite reverse_involutive. }
  exists l, (reverse l2). split_and!.
  - by rewrite <- Ht.
  - intros c Hc. apply (trim_start_head s). rewrite Ht.
    destruct (trim s); [done|]. done.
  - intros c. unfold trim. rewrite last_reverse. apply trim_start_head.
Qed.

Lemma trim_id s :
  (∀ c, head s = Some c → c ∉ Rx.space) →
  (∀ c, last s = Some c → c ∉ Rx.space) → trim s = s.
Proof.
  intros Hhead Hlast. unfold trim. rewrite (trim_start_id s Hhead).
  rewrite trim_start_id; [apply reverse_involutive|].
  intros c. rewrite head_reverse. apply Hlast.
Qed.

Lemma trim_normal s : single_spaced false s = true → normal_spacing (trim s).
Proof.
  intros Hs. destruct (trim_split s) as (l & r & Heq & Hhead & Hlast).
  split_and!; [| |done|done].
  - intros c Hc. apply (single_spaced_units false s c Hs).
    rewrite Heq. rewrite !elem_of_app. auto.
  - intros l' r' Ht.
    apply (single_spaced_pairs false s (l ++ l') (r' ++ r) Hs).
    rewrite Heq, Ht. by rewrite <- !app_assoc.
Qed.

(** The output is in normal spacing. *)
Theorem stripHtml_spacing (html : jsstring) : normal_spacing (stripHtml html).
Proof.
  unfold stripHtml. apply trim_normal.
  apply collapse_single_spaced. by left.
Qed.

Lemma replace_from_length re rep skip prev s :
  length rep ≤ 1 → length (Rx.replace_from re rep skip prev s) ≤ length s.
Proof.
  intros Hrep. revert skip prev.
  induction s as [|c s IH]; intros skip prev; [done|].
  destruct skip as [|n]; cbn [Rx.replace_from].
  - destruct (Rx.match_here re prev (c :: s)) as [[|m]|].
    + simpl. specialize (IH 0 (Some c)). lia.
    + rewrite length_app. specialize (IH m (Some c)). simpl. lia.
    + simpl. specialize (IH 0 (Some c)). lia.
  - specialize (IH n (Some c)). simpl. lia.
Qed.

Lemma trim_length s : length (trim s) ≤ length s.
Proof.
  destruct (trim_split s) as (l & r & Heq & _).
  rewrite Heq at 2. rewrite !length_app. lia.
Qed.

(** The output is never longer than the input. *)
Theorem stripHtml_length (html : jsstring) :
  length (stripHtml html) ≤ length html.
Proof.
  unfold stripHtml. etrans; [apply trim_length|].
  unfold Rx.replace.
  repeat (etrans; [apply replace_from_length; simpl; lia|]). done.
Qed.

End strip_spacing.

(** ** [stripHtml]: no tag is left *)

Section strip_tags.
Implicit Types (s a post : jsstring) (c d : N) (prev : option N) (q : scan).

Lemma gt_not_space : 62%N ∉ Rx.space.
Proof. apply (bool_decide_unpack _). by vm_compute. Qed.

Lemma lt_not_space : 60%N ∉ Rx.space.
Proof. apply (bool_decide_unpack _). by vm_compute. Qed.

(** The star of the tag pattern runs up to the first ">", where the rest
    of the pattern must match. *)
Lemma star_to_gt {R : Type} (g : jsstring → option R) prev a post :
  (∀ x s, x ≠ 62%N → g (x :: s) = None) → 62%N ∉ a →
  Rx.star_greedy Rx.not_gt (λ _ s', g s') prev (a ++ 62%N :: post)
  = g (62%N :: post).
Proof.
  intros Hg. revert prev. induction a as [|x a IH]; intros prev Ha; simpl.
  - done.
  - rewrite not_elem_of_cons in Ha. destruct Ha as [Hx Ha].
    rewrite bool_decide_eq_true_2 by (by intros ->%list_elem_of_singleton).
    rewrite IH by done. destruct (g (62%N :: post)) eqn:Hpost; [done|].
    by apply Hg.
Qed.

Lemma star_no_gt {R : Type} (g : jsstring → option R) prev s :
  (∀ x s, x ≠ 62%N → g (x :: s) = None) → g [] = None → 62%N ∉ s →
  Rx.star_greedy Rx.not_gt (λ _ s', g s') prev s = None.
Proof.
  intros Hg Hnil. revert prev.
  induction s as [|x s IH]; intros prev Hs; simpl; [done|].
  rewrite not_elem_of_cons in Hs. destruct Hs as [Hx Hs].
  rewrite bool_decide_eq_true_2 by (by intros ->%list_elem_of_singleton).
  rewrite IH by done. by apply Hg.
Qed.

Lemma tag_here_some prev d a post :
  d ≠ 62%N → 62%N ∉ a →
  Rx.match_here Rx.tag prev (60%N :: d :: a ++ 62%N :: post)
  = Some (S (S (S (length a)))).
Proof.
  intros Hd Ha. unfold Rx.match_here, Rx.tag. cbn [Rx.rmatch Rx.member].
  rewrite bool_decide_eq_true_2 by (by apply list_elem_of_singleton).
  unfold Rx.not_gt at 1. cbn [Rx.member].
  rewrite bool_decide_eq_true_2 by (by intros ->%list_elem_of_singleton).
  rewrite star_to_gt; [| |done].
  - rewrite bool_decide_eq_true_2 by (by apply list_elem_of_singleton).
    f_equal. simpl. rewrite length_app. simpl. lia.
  - intros x s Hx. rewrite bool_decide_eq_false_2; [done|].
    by intros ->%list_elem_of_singleton.
Qed.

Lemma tag_here_none prev c s :
  c ≠ 60%N ∨ head s = Some 62%N ∨ 62%N ∉ s →
  Rx.match_here Rx.tag prev (c :: s) = None.
Proof.
  intros Hcase. unfold Rx.match_here, Rx.tag. cbn [Rx.rmatch Rx.member].
  case_bool_decide as Hc; [|done].
  apply list_elem_of_singleton in Hc as ->.
  destruct s as [|d s]; [done|]. unfold Rx.not_gt at 1. cbn [Rx.member].
  case_bool_decide as Hd; [|done].
  destruct Hcase as [?|[[= ->]|Hs]]; [done| |].
  - destruct Hd. by apply list_elem_of_singleton.
  - apply star_no_gt; [|done|rewrite not_elem_of_cons in Hs; tauto].
    intros x s' Hx. rewrite bool_decide_eq_false_2; [done|].
    by intros ->%list_elem_of_singleton.
Qed.

Lemma tag_cases c s :
  (c = 60%N ∧ ∃ d a post, s = d :: a ++ 62%N :: post ∧ d ≠ 62%N ∧ 62%N ∉ a)
  ∨ (c ≠ 60%N ∨ head s = Some 62%N ∨ 62%N ∉ s).
Proof.
  destruct (decide (c = 60%N)) as [->|]; [|by auto].
  destruct s as [|d s]; [right; right; right; apply not_elem_of_nil|].
  destruct (decide (d = 62%N)) as [->|Hd]; [by auto|].
  destruct (decide (62%N ∈ s)) as [Hin|Hnin].
  - apply list_elem_of_split_l in Hin as (a & post & -> & Ha).
    left. split; [done|]. by exists d, a, post.
  - right. right. right. rewrite not_elem_of_cons. split; [congruence|done].
Qed.

(** What [replace(/<[^>]+>/g, " ")] returns passes the scanner. *)
Lemma replace_tag_free skip prev s q :
  q = Clear
  ∨ skip = 0 ∧ q = Opened ∧ (head s = Some 62%N ∨ 62%N ∉ s)
  ∨ skip = 0 ∧ q = Pending ∧ 62%N ∉ s →
  tag_free q (Rx.replace_from Rx.tag (js " ") skip prev s) = true.
Proof.
  revert skip prev q. induction s as [|c s IH]; intros skip prev q Hinv;
    [done|].
  destruct skip as [|n].
  - cbn [Rx.replace_from].
    destruct (tag_cases c s) as [[-> (d & a & post & -> & Hd & Ha)] | Hnone].
    + rewrite tag_here_some by done.
      assert (q = Clear) as ->.
      { destruct Hinv as [?|[(_ & _ & [[=]|Hs])|(_ & _ & Hs)]]; [done| |];
          destruct Hs; rewrite !elem_of_cons, elem_of_app, elem_of_cons;
          auto. }
      change (js " " ++ ?x) with (32%N :: x). cbn [tag_free].
      apply IH. by left.
    + rewrite tag_here_none by done. cbn [tag_free]. unfold scan_step.
      case_bool_decide as H62; [subst c|case_bool_decide as H60; [subst c|]].
      * destruct Hinv as [->|[(_ & -> & _)|(_ & _ & Hs)]].
        -- apply IH. by left.
        -- apply IH. by left.
        -- destruct Hs. by left.
      * assert (head s = Some 62%N ∨ 62%N ∉ s) as Hs.
        { destruct Hnone as [?|[?|?]]; [done|auto|auto]. }
        destruct Hinv as [->|[(_ & -> & [[=]|Hs'])|(_ & -> & Hs')]].
        -- apply IH. right. left. done.
        -- apply IH. right. right. rewrite not_elem_of_cons in Hs'. tauto.
        -- apply IH. right. right. rewrite not_elem_of_cons in Hs'. tauto.
      * destruct Hinv as [->|[(_ & -> & [[= ->]|Hs'])|(_ & -> & Hs')]].
        -- apply IH. by left.
        -- done.
        -- apply IH. right. right. rewrite not_elem_of_cons in Hs'. tauto.
        -- apply IH. right. right. rewrite not_elem_of_cons in Hs'. tauto.
  - cbn [Rx.replace_from].
    destruct Hinv as [->|[([=] & _)|([=] & _)]]. apply IH. by left.
Qed.

(** White space does not move the scanner out of [Clear] or [Pending]. *)
Lemma scan_step_space q c :
  c ∈ Rx.space →
  scan_step q c = Some (match q with Clear => Clear | _ => Pending end).
Proof.
  intros Hc. unfold scan_step.
  rewrite bool_decide_eq_false_2
    by (intros ->; by apply gt_not_space).
  rewrite bool_decide_eq_false_2
    by (intros ->; by apply lt_not_space).
  by destruct q.
Qed.

(** Collapsing white space keeps a text free of tags. *)
Lemma collapse_tag_free skip prev s q :
  skip ≤ leading s → (0 < skip → q ≠ Opened) →
  tag_free q s = true →
  tag_free q (Rx.replace_from Rx.spaces (js " ") skip prev s) = true.
Proof.
  revert skip prev q. induction s as [|c s IH]; intros skip prev q Hskip Hq;
    [done|].
  destruct skip as [|n].
  - cbn [Rx.replace_from]. rewrite spaces_here. case_bool_decide as Hc.
    + change (js " " ++ ?x) with (32%N :: x). cbn [tag_free].
      rewrite (scan_step_space q c Hc).
      rewrite (scan_step_space q 32%N space_is_space).
      intros Hs. apply IH; [done | by destruct q | done].
    + cbn [tag_free]. destruct (scan_step q c) as [q'|]; [|done].
      apply IH; [lia | lia].
  - cbn [Rx.replace_from]. simpl in Hskip.
    case_bool_decide as Hc; [|lia].
    cbn [tag_free]. rewrite (scan_step_space q c Hc).
    assert (q ≠ Opened) by (apply Hq; lia).
    destruct q; [|done|]; (apply IH; [lia | done]).
Qed.

Lemma tag_free_pending a post :
  62%N ∉ a → tag_free Pending (a ++ 62%N :: post) = false.
Proof.
  induction a as [|x a IH]; intros Ha; [done|].
  rewrite not_elem_of_cons in Ha. destruct Ha as [Hx Ha].
  simpl. unfold scan_step. rewrite bool_decide_eq_false_2 by done.
  case_bool_decide; by apply IH.
Qed.

(** A text that passes the scanner holds no tag. *)
Lemma tag_free_sound q s : tag_free q s = true → ¬ has_tag s.
Proof.
  intros Hs (pre & a & post & -> & Ha & Hgt). revert q Hs.
  induction pre as [|x pre IH]; intros q Hs.
  - destruct a as [|d a]; [done|].
    rewrite not_elem_of_cons in Hgt. destruct Hgt as [Hd Hgt].
    simpl in Hs. unfold scan_step in Hs.
    rewrite !(bool_decide_eq_false_2 (60%N = 62%N)) in Hs by done.
    rewrite !(bool_decide_eq_false_2 (d = 62%N)) in Hs by done.
    rewrite (bool_decide_eq_true_2 (60%N = 60%N)) in Hs by done.
    change (a ++ [62%N] ++ post) with (a ++ 62%N :: post) in Hs.
    destruct q; case_bool_decide; by rewrite tag_free_pending in Hs.
  - simpl in Hs. destruct (scan_step q x) as [q'|]; [|done].
    by eapply IH.
Qed.

Lemma has_tag_infix l s r : has_tag s → has_tag (l ++ s ++ r).
Proof.
  intros (pre & a & post & -> & Ha & Hgt).
  exists (l ++ pre), a, (post ++ r). split; [|done].
  by rewrite <- !app_assoc.
Qed.

(** The output holds no tag. *)
Theorem stripHtml_no_tag (html : jsstring) : ¬ has_tag (stripHtml html).
Proof.
  unfold stripHtml.
  set (t := Rx.replace Rx.spaces _ _).
  destruct (trim_split t) as (l & r & Ht & _).
  intros Htag%(has_tag_infix l _ r). rewrite <- Ht in Htag.
  revert Htag. apply (tag_free_sound Clear).
  apply collapse_tag_free; [lia | lia |].
  apply replace_tag_free. by left.
Qed.

End strip_tags.

(** ** [stripHtml]: the texts it leaves alone *)

Section strip_fixed.
Implicit Types (s : jsstring) (c : N) (prev : option N) (re : Rx.t).

(** A continuation is always entered on a suffix of the input. *)
Lemma star_greedy_suffix {R : Type} k (cont : option N → jsstring → option R)
    prev s v :
  Rx.star_greedy k cont prev s = Some v →
  ∃ prev' s', s' `suffix_of` s ∧ cont prev' s' = Some v.
Proof.
  revert prev. induction s as [|c s IH]; intros prev; simpl.
  - intros Hv. by exists prev, [].
  - destruct (Rx.member k c).
    + destruct (Rx.star_greedy k cont (Some c) s) as [v'|] eqn:Hrec.
      * intros [= <-]. apply IH in Hrec as (p' & s' & Hs' & Hv).
        exists p', s'. split; [by apply suffix_cons_r | done].
      * intros Hv. by exists prev, (c :: s).
    + intros Hv. by exists prev, (c :: s).
Qed.

Lemma star_lazy_suffix {R : Type} k (cont : option N → jsstring → option R)
    prev s v :
  Rx.star_lazy k cont prev s = Some v →
  ∃ prev' s', s' `suffix_of` s ∧ cont prev' s' = Some v.
Proof.
  revert prev. induction s as [|c s IH]; intros prev; simpl.
  - destruct (cont prev []) eqn:Hc; [|done]. intros [= <-]. by exists prev, [].
  - destruct (cont prev (c :: s)) eqn:Hc.
    + intros [= <-]. by exists prev, (c :: s).
    + destruct (Rx.member k c); [|done].
      intros (p' & s' & Hs' & Hv)%IH.
      exists p', s'. split; [by apply suffix_cons_r | done].
Qed.

Lemma rmatch_suffix {R : Type} re prev s
    (cont : option N → jsstring → option R) v :
  Rx.rmatch re prev s cont = Some v →
  ∃ prev' s', s' `suffix_of` s ∧ cont prev' s' = Some v.
Proof.
  revert prev s cont. induction re as [|k|r1 IH1 r2 IH2|g k| |];
    intros prev s cont; cbn [Rx.rmatch].
  - intros Hv. by exists prev, s.
  - destruct s as [|c s]; [done|]. destruct (Rx.member k c); [|done].
    intros Hv. exists (Some c), s. split; [by apply suffix_cons_r | done].
  - intros (p1 & s1 & Hs1 & (p2 & s2 & Hs2 & Hv)%IH2)%IH1.
    exists p2, s2. split; [by etrans | done].
  - destruct g; [apply star_greedy_suffix | apply star_lazy_suffix].
  - destruct (xorb _ _); [|done]. intros Hv. by exists prev, s.
  - destruct s as [|c s].
    + intros Hv. by exists prev, [].
    + case_bool_decide; [|done]. intros Hv. by exists prev, (c :: s).
Qed.

(** A pattern that needs a code unit only matches where it occurs. *)
Lemma needs_elem {R : Type} c re prev s
    (cont : option N → jsstring → option R) v :
  needs c re = true → Rx.rmatch re prev s cont = Some v → c ∈ s.
Proof.
  revert prev s cont. induction re as [|k|r1 IH1 r2 IH2|g k| |];
    intros prev s cont; cbn [needs Rx.rmatch]; try done.
  - destruct k as [l|l]; [|done]. intros Hl.
    destruct s as [|x s]; [done|]. simpl.
    case_bool_decide as Hx; [|done]. intros _.
    rewrite forallb_forall in Hl. apply list_elem_of_In, Hl in Hx.
    apply bool_decide_eq_true in Hx as ->. by left.
  - intros [H1|H2]%orb_true_iff Hm.
    + by eapply IH1.
    + apply rmatch_suffix in Hm as (p1 & s1 & [l ->] & Hm).
      apply elem_of_app. right. by eapply IH2.
Qed.

(** A match that starts with "<", goes on with something else than ">"
    and needs a ">" later lies on a tag. *)
Lemma opens_tag {R : Type} k1 k2 rest prev s
    (cont : option N → jsstring → option R) v :
  (∀ x, Rx.member k1 x = true → x = 60%N) →
  (∀ x, Rx.member k2 x = true → x ≠ 62%N) →
  needs 62%N rest = true →
  Rx.rmatch (Rx.Seq (Rx.One k1) (Rx.Seq (Rx.One k2) rest)) prev s cont
  = Some v →
  has_tag s.
Proof.
  intros Hk1 Hk2 Hrest. cbn [Rx.rmatch].
  destruct s as [|c s]; [done|].
  destruct (Rx.member k1 c) eqn:Hc; [|done]. apply Hk1 in Hc as ->.
  destruct s as [|d s]; [done|].
  destruct (Rx.member k2 d) eqn:Hd; [|done]. apply Hk2 in Hd.
  intros Hin%(needs_elem 62%N); [|done].
  apply list_elem_of_split_l in Hin as (a & post & -> & Ha).
  exists [], (d :: a), post. split_and!; [done|done|].
  rewrite not_elem_of_cons. split; [congruence|done].
Qed.

Lemma script_tagged prev s n :
  Rx.match_here Rx.script prev s = Some n → has_tag s.
Proof.
  unfold Rx.match_here.
  change (Rx.rmatch Rx.script prev s ?k)
    with (Rx.rmatch
            (Rx.Seq (Rx.One (Rx.Only [60; 60]%N))
               (Rx.Seq (Rx.One (Rx.Only [83; 115]%N))
                  (Rx.Seq (Rx.lit_i (js "cript"))
                     (Rx.Seq Rx.Boundary
                        (Rx.Seq (Rx.Star true Rx.not_gt)
                           (Rx.Seq (Rx.One (Rx.Only [62%N]))
                              (Rx.Seq (Rx.Star false Rx.any)
                                 (Rx.lit_i (js "</script>")))))))))
            prev s k).
  apply opens_tag; [| |by vm_compute].
  - intros x Hx%bool_decide_eq_true. set_solver.
  - intros x Hx%bool_decide_eq_true ->. set_solver.
Qed.

Lemma style_tagged prev s n :
  Rx.match_here Rx.style prev s = Some n → has_tag s.
Proof.
  unfold Rx.match_here.
  change (Rx.rmatch Rx.style prev s ?k)
    with (Rx.rmatch
            (Rx.Seq (Rx.One (Rx.Only [60; 60]%N))
               (Rx.Seq (Rx.One (Rx.Only [83; 115]%N))
                  (Rx.Seq (Rx.lit_i (js "tyle"))
                     (Rx.Seq Rx.Boundary
                        (Rx.Seq (Rx.Star true Rx.not_gt)
                           (Rx.Seq (Rx.One (Rx.Only [62%N]))
                              (Rx.Seq (Rx.Star false Rx.any)
                                 (Rx.lit_i (js "</style>")))))))))
            prev s k).
  apply opens_tag; [| |by vm_compute].
  - intros x Hx%bool_decide_eq_true. set_solver.
  - intros x Hx%bool_decide_eq_true ->. set_solver.
Qed.

Lemma comment_tagged prev s n :
  Rx.match_here Rx.comment prev s = Some n → has_tag s.
Proof.
  unfold Rx.match_here.
  change (Rx.rmatch Rx.comment prev s ?k)
    with (Rx.rmatch
            (Rx.Seq (Rx.One (Rx.Only [60%N]))
               (Rx.Seq (Rx.One (Rx.Only [33%N]))
                  (Rx.Seq (Rx.lit (js "--"))
                     (Rx.Seq (Rx.Star false Rx.any) (Rx.lit (js "-->"))))))
            prev s k).
  apply opens_tag; [| |by vm_compute].
  - intros x Hx%bool_decide_eq_true. set_solver.
  - intros x Hx%bool_decide_eq_true ->. set_solver.
Qed.

Lemma tag_tagged prev s n :
  Rx.match_here Rx.tag prev s = Some n → has_tag s.
Proof.
  destruct s as [|c s]; [done|].
  destruct (tag_cases c s) as [[-> (d & a & post & -> & Hd & Ha)] | Hnone].
  - intros _. exists [], (d :: a), post. split_and!; [done|done|].
    rewrite not_elem_of_cons. split; [congruence|done].
  - by rewrite tag_here_none.
Qed.

Lemma has_tag_tail c s : has_tag s → has_tag (c :: s).
Proof. intros Hs. by apply (has_tag_infix [c] s []) in Hs as Hs'; rewrite app_nil_r in Hs'. Qed.

(** A pattern that only matches on tags changes nothing in a text
    without tags. *)
Lemma replace_untagged re rep s :
  (∀ prev s' n, Rx.match_here re prev s' = Some n → has_tag s') →
  ¬ has_tag s → Rx.replace re rep s = s.
Proof.
  intros Hre. unfold Rx.replace. generalize (@None N).
  induction s as [|c s IH]; intros prev Hs; [done|].
  cbn [Rx.replace_from].
  destruct (Rx.match_here re prev (c :: s)) as [[|n]|] eqn:Hm.
  - f_equal. apply IH. intros Ht. by apply Hs, has_tag_tail.
  - destruct Hs. by eapply Hre.
  - f_equal. apply IH. intros Ht. by apply Hs, has_tag_tail.
Qed.

Lemma single_spaced_leading s : single_spaced true s = true → leading s = 0.
Proof.
  destruct s as [|c s]; [done|]. simpl. by case_bool_decide.
Qed.

(** Collapsing changes nothing in a single-spaced text. *)
Lemma collapse_id prev s b :
  single_spaced b s = true →
  Rx.replace_from Rx.spaces (js " ") 0 prev s = s.
Proof.
  revert prev b. induction s as [|c s IH]; intros prev b; [done|].
  cbn [Rx.replace_from single_spaced]. rewrite spaces_here.
  case_bool_decide as Hc.
  - intros [[_ ->%bool_decide_eq_true]%andb_true_iff Hs]%andb_true_iff.
    rewrite (single_spaced_leading s Hs).
    change (js " " ++ ?x) with (32%N :: x). f_equal. by eapply IH.
  - intros Hs. f_equal. by eapply IH.
Qed.

Lemma normal_single_spaced b s :
  (∀ c, c ∈ s → c ∈ Rx.space → c = 32%N) →
  (∀ l r, s ≠ l ++ [32%N; 32%N] ++ r) →
  (b = true → ∀ c, head s = Some c → c ∉ Rx.space) →
  single_spaced b s = true.
Proof.
  revert b. induction s as [|c s IH]; intros b Hunits Hpairs Hhead; [done|].
  simpl. case_bool_decide as Hc.
  - assert (c = 32%N) as -> by (apply Hunits; [by left | done]).
    assert (b = false) as ->.
    { destruct b; [|done]. by destruct (Hhead eq_refl 32%N eq_refl). }
    rewrite bool_decide_eq_true_2 by done. simpl. apply IH.
    + intros x Hx. apply Hunits. by right.
    + intros l r ->. by apply (Hpairs (32%N :: l) r).
    + intros _ x Hx Hspace. destruct s as [|y s]; [done|].
      injection Hx as ->. assert (x = 32%N) as ->.
      { apply Hunits; [right; by left | done]. }
      by apply (Hpairs [] s).
  - apply IH.
    + intros x Hx. apply Hunits. by right.
    + intros l r ->. by apply (Hpairs (c :: l) r).
    + done.
Qed.

(** The function leaves a text as it is exactly when the text holds no
    tag and is in normal spacing. *)
Theorem stripHtml_fixed_points (s : jsstring) :
  stripHtml s = s ↔ ¬ has_tag s ∧ normal_spacing s.
Proof.
  split.
  - intros <-. split; [apply stripHtml_no_tag | apply stripHtml_spacing].
  - intros [Htag (Hunits & Hpairs & Hhead & Hlast)]. unfold stripHtml.
    rewrite (replace_untagged Rx.script) by (done || apply script_tagged).
    rewrite (replace_untagged Rx.style) by (done || apply style_tagged).
    rewrite (replace_untagged Rx.comment) by (done || apply comment_tagged).
    rewrite (replace_untagged Rx.tag) by (done || apply tag_tagged).
    unfold Rx.replace. rewrite (collapse_id None s false).
    + by apply trim_id.
    + by apply normal_single_spaced.
Qed.

(** Stripping twice is stripping once. *)
Theorem stripHtml_idempotent (html : jsstring) :
  stripHtml (stripHtml html) = stripHtml html.
Proof.
  apply stripHtml_fixed_points.
  split; [apply stripHtml_no_tag | apply stripHtml_spacing].
Qed.

End strip_fixed.

(** ** [parseJsonLoose] *)

Section loose_properties.
Variable JSON_parse : jsstring → exn val.
Implicit Types (s pre mid post : jsstring) (c : N) (prev : option N).

Lemma match_first_elem re prev s m c :
  needs c re = true → match_first re prev s = Some m → c ∈ s.
Proof.
  intros Hre. revert prev. induction s as [|x s IH]; intros prev; simpl.
  - destruct (Rx.match_here re prev []) eqn:Hm; [|done].
    intros _. by eapply needs_elem.
  - destruct (Rx.match_here re prev (x :: s)) eqn:Hm.
    + intros _. by eapply needs_elem.
    + intros Hs%IH. by right.
Qed.

(** A text without "{" or without "}" is parsed strictly or not at all. *)
Theorem parseJsonLoose_without_object s :
  123%N ∉ s ∨ 125%N ∉ s →
  parseJsonLoose JSON_parse s
  = match JSON_parse s with Ok v => v | Throw => VNull end.
Proof.
  intros Hs. unfold parseJsonLoose. destruct (JSON_parse s); [done|].
  destruct (match_first loose_object None s) as [m|] eqn:Hm; [|done].
  destruct Hs as [Hs|Hs]; destruct Hs;
    by eapply (match_first_elem loose_object None s m).
Qed.

(** The greedy star over any code unit, in front of a continuation that
    wants a "}": it stops at the last "}" that the continuation accepts. *)
Lemma star_any_none {R : Type} (g : jsstring → option R) prev s :
  (∀ x t, x ≠ 125%N → g (x :: t) = None) → g [] = None → 125%N ∉ s →
  Rx.star_greedy Rx.any (λ _ s', g s') prev s = None.
Proof.
  intros Hg Hnil. revert prev.
  induction s as [|x s IH]; intros prev Hs; simpl; [done|].
  rewrite not_elem_of_cons in Hs. destruct Hs as [Hx Hs].
  rewrite IH by done. by apply Hg.
Qed.

Lemma star_any_last {R : Type} (g : jsstring → option R) prev mid post :
  (∀ x t, x ≠ 125%N → g (x :: t) = None) → g [] = None → 125%N ∉ post →
  is_Some (g (125%N :: post)) →
  Rx.star_greedy Rx.any (λ _ s', g s') prev (mid ++ 125%N :: post)
  = g (125%N :: post).
Proof.
  intros Hg Hnil Hpost [v Hv]. revert prev.
  induction mid as [|x mid IH]; intros prev; simpl.
  - by rewrite star_any_none.
  - by rewrite IH, Hv.
Qed.

Lemma loose_here prev mid post :
  125%N ∉ post →
  post = [] ∨ (∃ c t, post = c :: t ∧ c ∈ Rx.line_end) →
  Rx.match_here loose_object prev (123%N :: mid ++ 125%N :: post)
  = Some (S (S (length mid))).
Proof.
  intros Hpost Hend. unfold Rx.match_here, loose_object.
  cbn [Rx.rmatch Rx.member].
  rewrite bool_decide_eq_true_2 by (by apply list_elem_of_singleton).
  rewrite star_any_last; [| |done|done|].
  - rewrite bool_decide_eq_true_2 by (by apply list_elem_of_singleton).
    destruct Hend as [-> | (c & t & -> & Hc)].
    + f_equal. simpl. rewrite length_app. simpl. lia.
    + rewrite bool_decide_eq_true_2 by done.
      f_equal. simpl. rewrite length_app. simpl. lia.
  - intros x t Hx. rewrite bool_decide_eq_false_2; [done|].
    by intros ->%list_elem_of_singleton.
  - rewrite bool_decide_eq_true_2 by (by apply list_elem_of_singleton).
    destruct Hend as [-> | (c & t & -> & Hc)]; [done|].
    by rewrite bool_decide_eq_true_2.
Qed.

Lemma loose_here_other prev c s :
  c ≠ 123%N → Rx.match_here loose_object prev (c :: s) = None.
Proof.
  intros Hc. unfold Rx.match_here, loose_object. cbn [Rx.rmatch Rx.member].
  rewrite bool_decide_eq_false_2; [done|].
  by intros ->%list_elem_of_singleton.
Qed.

Lemma match_first_skip prev pre s m :
  123%N ∉ pre → s ≠ [] →
  (∀ p, match_first loose_object p s = m) →
  match_first loose_object prev (pre ++ s) = m.
Proof.
  intros Hpre Hs Hm. revert prev.
  induction pre as [|x pre IH]; intros prev; [apply Hm|].
  rewrite not_elem_of_cons in Hpre. destruct Hpre as [Hx Hpre].
  cbn [app match_first]. rewrite loose_here_other by done. by apply IH.
Qed.

(** Behind prose without "{", an object that runs to the end of the text
    or of its line, with no "}" after it, is what gets parsed. *)
Theorem parseJsonLoose_rescue pre mid post :
  JSON_parse (pre ++ 123%N :: mid ++ 125%N :: post) = Throw →
  123%N ∉ pre → 125%N ∉ post →
  post = [] ∨ (∃ c t, post = c :: t ∧ c ∈ Rx.line_end) →
  parseJsonLoose JSON_parse (pre ++ 123%N :: mid ++ 125%N :: post)
  = match JSON_parse (123%N :: mid ++ [125%N]) with
    | Ok v => v
    | Throw => VNull
    end.
Proof.
  intros Hparse Hpre Hpost Hend. unfold parseJsonLoose. rewrite Hparse.
  rewrite (match_first_skip None pre _
             (Some (123%N :: mid ++ [125%N]))); [done|done|done|].
  intros p. cbn [match_first]. rewrite loose_here by done.
  f_equal. cbn [take]. f_equal.
  rewrite (cons_middle 125%N mid post), app_assoc.
  apply take_app_length'. rewrite length_app. simpl. lia.
Qed.

End loose_properties.

(** ** Instances *)

Lemma dedupeByLink_same_links_witness :
  "b"%string ∈ snd <$> dedupeByLink snd [(1, "a"); (2, "b"); (3, "b")]%string.
Proof.
  apply (dedupeByLink_same_links snd). vm_compute.
  apply elem_of_cons. right. apply elem_of_cons. by left.
Defined.


Lemma stripHtml_no_tag_witness :
  ¬ has_tag (stripHtml (js "<p>Hello <b>world</b></p>")).
Proof. apply stripHtml_no_tag. Defined.

Lemma stripHtml_fixed_points_witness :
  stripHtml (js "Hello world") = js "Hello world".
Proof.
  apply stripHtml_fixed_points. split.
  - by apply (tag_free_sound Clear).
  - by apply (trim_normal (js "Hello world")).
Defined.

Lemma parseJsonLoose_without_object_witness :
  parseJsonLoose (λ _, Throw) (js "Sorry, I cannot help") = VNull.
Proof.
  apply (parseJsonLoose_without_object (λ _, Throw)).
  left. apply (bool_decide_unpack _). by vm_compute.
Defined.

(** A parser that knows the empty object only. *)
Lemma parseJsonLoose_rescue_witness :
  parseJsonLoose
    (λ s, match s with
          | [a; b] => if ((a =? 123) && (b =? 125))%N then Ok (VObj [])
                      else Throw
          | _ => Throw
          end)
    (js "Here it is: {}")
  = VObj [].
Proof.
  change (js "Here it is: {}")
    with (js "Here it is: " ++ 123%N :: [] ++ 125%N :: []).
  etrans; [apply parseJsonLoose_rescue|reflexivity].
  - reflexivity.
  - apply (bool_decide_unpack _). by vm_compute.
  - apply not_elem_of_nil.
  - by left.
Defined.
